(** * vulkan-tutorial: the Sierpinski mesh generator and the point-light system

    A shallow embedding of

    - [LveAppBase::sierpinski] (lve_app_base.cpp), the recursive generator of
      the triangle fractal, and
    - [UnitSystem::update] and [UnitSystem::render] (systems/unit_system.cpp),
      the per-frame passes over the point lights,

    followed by the properties the specification states about them.

    C++ [float] is IEEE 754 binary32.  It is modelled by the Standard
    Library's [spec_float] at precision 24 and maximal exponent 128, whose
    operations round to nearest even and are plain, executable functions. *)

From Equations Require Import Equations.
From Stdlib Require Import ZArith List Bool Lia Permutation Sorted.
From Stdlib Require Import Floats.SpecFloat.
Import ListNotations.

Local Open Scope Z_scope.

(** ** Scalars: binary32 *)

Module F32.

Definition prec : Z := 24.
Definition emax : Z := 128.

Definition float : Type := spec_float.

Definition add : float -> float -> float := SFadd prec emax.
Definition sub : float -> float -> float := SFsub prec emax.
Definition mul : float -> float -> float := SFmul prec emax.

(** [a < b] and [a == b] of C++. Both are false when an operand is NaN. *)
Definition ltb : float -> float -> bool := SFltb.
Definition eqb : float -> float -> bool := SFeqb.

(** The literal [m * 2^e], rounded to binary32. *)
Definition lit (m e : Z) : float := binary_normalize prec emax m e false.

Definition zero : float := Eval cbv in lit 0 0.          (* 0.0f  *)
Definition one : float := Eval cbv in lit 1 0.           (* 1.0f  *)
Definition half : float := Eval cbv in lit 1 (-1).       (* 0.5f  *)
Definition neg_half : float := Eval cbv in lit (-1) (-1).  (* -.5f *)
Definition neg_one : float := Eval cbv in lit (-1) 0.    (* -1.f  *)

Definition is_nan (x : float) : bool :=
  match x with S754_nan => true | _ => false end.

(** A rank for the floats that are not NaN: [<] on them is the
    lexicographic order of the ranks. *)
Definition rank (x : float) : Z * Z * Z :=
  match x with
  | S754_infinity true => (-2, 0, 0)
  | S754_finite true m e => (-1, - e, Z.neg m)
  | S754_zero _ => (0, 0, 0)
  | S754_nan => (0, 0, 0)
  | S754_finite false m e => (1, e, Z.pos m)
  | S754_infinity false => (2, 0, 0)
  end.

Definition lex_lt (p q : Z * Z * Z) : Prop :=
  let '(a, b, c) := p in
  let '(a', b', c') := q in
  a < a' \/ (a = a' /\ (b < b' \/ (b = b' /\ c < c'))).

End F32.

Abbreviation float := F32.float.

Declare Scope f32_scope.
Delimit Scope f32_scope with f32.
Infix "+" := F32.add : f32_scope.
Infix "-" := F32.sub : f32_scope.
Infix "*" := F32.mul : f32_scope.

(** ** The part of glm the two files use

    glm's vectors are plain structs of floats and its operators act
    component by component. *)

Module glm.

Record vec2 := mk_vec2 { x2 : float; y2 : float }.
Record vec3 := mk_vec3 { x3 : float; y3 : float; z3 : float }.
Record vec4 := mk_vec4 { x4 : float; y4 : float; z4 : float; w4 : float }.

(** [a + b] on [vec2]. *)
Definition add2 (a b : vec2) : vec2 :=
  mk_vec2 (x2 a + x2 b)%f32 (y2 a + y2 b)%f32.

(** [s * v] on [vec2]. *)
Definition scale2 (s : float) (v : vec2) : vec2 :=
  mk_vec2 (s * x2 v)%f32 (s * y2 v)%f32.

(** [a - b] on [vec3]. *)
Definition sub3 (a b : vec3) : vec3 :=
  mk_vec3 (x3 a - x3 b)%f32 (y3 a - y3 b)%f32 (z3 a - z3 b)%f32.

(** [glm::dot] on [vec3]: the products are summed left to right. *)
Definition dot (a b : vec3) : float :=
  ((x3 a * x3 b + y3 a * y3 b) + z3 a * z3 b)%f32.

(** [glm::vec4(v, w)] and [glm::vec3(v)]. *)
Definition vec4_of (v : vec3) (w : float) : vec4 :=
  mk_vec4 (x3 v) (y3 v) (z3 v) w.
Definition vec3_of (v : vec4) : vec3 :=
  mk_vec3 (x4 v) (y4 v) (z4 v).

Definition add4 (a b : vec4) : vec4 :=
  mk_vec4 (x4 a + x4 b)%f32 (y4 a + y4 b)%f32
          (z4 a + z4 b)%f32 (w4 a + w4 b)%f32.
Definition scale4 (v : vec4) (s : float) : vec4 :=
  mk_vec4 (x4 v * s)%f32 (y4 v * s)%f32 (z4 v * s)%f32 (w4 v * s)%f32.

(** A [mat4] is four columns. *)
Record mat4 := mk_mat4 { col0 : vec4; col1 : vec4; col2 : vec4; col3 : vec4 }.

(** [glm::mat4(1.f)]. *)
Definition mat4_diag (d : float) : mat4 :=
  mk_mat4 (mk_vec4 d F32.zero F32.zero F32.zero)
          (mk_vec4 F32.zero d F32.zero F32.zero)
          (mk_vec4 F32.zero F32.zero d F32.zero)
          (mk_vec4 F32.zero F32.zero F32.zero d).

(** [m * v]: the combination of the columns of [m] weighted by the
    components of [v], summed pairwise. *)
Definition mul_mat4_vec4 (m : mat4) (v : vec4) : vec4 :=
  add4 (add4 (scale4 (col0 m) (x4 v)) (scale4 (col1 m) (y4 v)))
       (add4 (scale4 (col2 m) (z4 v)) (scale4 (col3 m) (w4 v))).

End glm.

(** ** lve_app_base.cpp: the mesh generator *)

(** Modelled from the spec: [LveModel::Vertex] is declared in lve_model.hpp,
    which is not among the sources; the generator brace-initialises it with a
    2D position followed by a 3-channel color. *)
Record Vertex := mk_Vertex { v_position : glm.vec2; v_color : glm.vec3 }.

Definition red : glm.vec3 := glm.mk_vec3 F32.one F32.zero F32.zero.
Definition green : glm.vec3 := glm.mk_vec3 F32.zero F32.one F32.zero.
Definition blue : glm.vec3 := glm.mk_vec3 F32.zero F32.zero F32.one.

(** [0.5f * (a + b)]. *)
Definition midpoint (a b : glm.vec2) : glm.vec2 :=
  glm.scale2 F32.half (glm.add2 a b).

(** [vertices.push_back(v)]. *)
Definition push_back {A : Type} (vertices : list A) (v : A) : list A :=
  vertices ++ [v].

(** [LveAppBase::sierpinski].  The vector passed by reference is threaded
    through the calls; the corners [left] and [right] carry an underscore
    here, as sum types own those names.  [depth] is a C++ [int]; [depth - 1]
    is only computed when [depth > 0], where it cannot wrap, so [Z] is
    exact. *)
Equations? sierpinski (vertices : list Vertex) (depth : Z)
    (left_ right_ top : glm.vec2) : list Vertex by wf (Z.to_nat depth) lt :=
  sierpinski vertices depth left_ right_ top with Z_le_gt_dec depth 0 := {
    | left _ =>
        let vertices := push_back vertices (mk_Vertex top red) in
        let vertices := push_back vertices (mk_Vertex right_ green) in
        push_back vertices (mk_Vertex left_ blue)
    | right _ =>
        let leftTop := midpoint left_ top in
        let rightTop := midpoint right_ top in
        let leftRight := midpoint left_ right_ in
        let vertices := sierpinski vertices (depth - 1) left_ leftRight leftTop in
        let vertices := sierpinski vertices (depth - 1) leftRight right_ rightTop in
        sierpinski vertices (depth - 1) leftTop rightTop top }.
Proof. all: lia. Qed.

(** The same body run with a bound on the number of nested calls: every call
    takes one unit of [fuel], and [None] is a call chain cut short. *)
Fixpoint sierpinski_fuel (fuel : nat) (vertices : list Vertex) (depth : Z)
    (left_ right_ top : glm.vec2) : option (list Vertex) :=
  match fuel with
  | O => None
  | S fuel =>
      if depth <=? 0 then
        let vertices := push_back vertices (mk_Vertex top red) in
        let vertices := push_back vertices (mk_Vertex right_ green) in
        Some (push_back vertices (mk_Vertex left_ blue))
      else
        let leftTop := midpoint left_ top in
        let rightTop := midpoint right_ top in
        let leftRight := midpoint left_ right_ in
        match sierpinski_fuel fuel vertices (depth - 1) left_ leftRight leftTop with
        | None => None
        | Some vertices =>
            match sierpinski_fuel fuel vertices (depth - 1)
                    leftRight right_ rightTop with
            | None => None
            | Some vertices =>
                sierpinski_fuel fuel vertices (depth - 1) leftTop rightTop top
            end
        end
  end.

(** The generator run on an empty vector, as [LveAppBase::loadModels] does. *)
Definition generate (depth : Z) (left_ right_ top : glm.vec2) : list Vertex :=
  sierpinski [] depth left_ right_ top.

Definition p_left : glm.vec2 := glm.mk_vec2 F32.neg_half F32.half.
Definition p_right : glm.vec2 := glm.mk_vec2 F32.half F32.half.
Definition p_top : glm.vec2 := glm.mk_vec2 F32.zero F32.neg_half.

(** [LveAppBase::loadModels]: the vertices handed to the model. *)
Definition loadModels : list Vertex := generate 1 p_left p_right p_top.

(** ** systems/unit_system.cpp: the point-light passes *)

(** *** Faults

    The passes can stop in three ways: the [assert] of the update pass fails
    (the build keeps assertions), [std::unordered_map::at] throws
    [std::out_of_range], or a null [pointLight] is dereferenced. *)

Inductive fault := assertion_failed | out_of_range | null_dereference.

Definition result (A : Type) : Type := fault + A.

Definition ret {A} (a : A) : result A := inr a.
Definition raise {A} (e : fault) : result A := inl e.
Definition bind {A B} (m : result A) (k : A -> result B) : result B :=
  match m with
  | inl e => inl e
  | inr a => k a
  end.

Notation "x <- m ;; k" := (bind m (fun x => k))
  (at level 61, m at next level, right associativity).
Notation "' p <- m ;; k" := (bind m (fun x => let p := x in k))
  (at level 61, p pattern, m at next level, right associativity).

(** [assert(b)]. *)
Definition assert (b : bool) : result unit :=
  if b then ret tt else raise assertion_failed.

(** *** Game objects *)

(** [LveGameObject::id_t], an [unsigned int]. *)
Definition id_t : Type := Z.

(** The game object and its components are declared in the game-object
    header, which is not among the sources.  The records below hold the
    members that the two passes read or write. *)

Module TransformComponent.
(** Modelled from the spec: the transform component of a game object, of
    which the passes use [translation] and [scale]. *)
Record t := mk { translation : glm.vec3; scale : glm.vec3 }.
End TransformComponent.

Module PointLightComponent.
(** Modelled from the spec: the point-light component of a game object,
    with the intensity of the light. *)
Record t := mk { lightIntensity : float }.
End PointLightComponent.

Module LveGameObject.
(** Modelled from the spec: the game object, with the identifier behind
    [getId()], its transform, its color and the nullable [pointLight]. *)
Record t := mk {
  getId : id_t;
  transform : TransformComponent.t;
  color : glm.vec3;
  pointLight : option PointLightComponent.t   (* [None] is [nullptr] *)
}.

(** [LveGameObject::Map], an unordered map from identifiers to objects,
    as the sequence of entries its iteration visits. *)
Definition Map : Type := list (id_t * t).

(** [Map::at]: the entry stored under the key, or [std::out_of_range]. *)
Fixpoint at_ (m : Map) (key : id_t) : result t :=
  match m with
  | [] => raise out_of_range
  | (k, obj) :: m' => if k =? key then ret obj else at_ m' key
  end.
End LveGameObject.

(** The entries of a map have distinct keys, and every object of the scene
    is stored under its own identifier. *)
Definition well_formed (gameObjects : LveGameObject.Map) : Prop :=
  NoDup (map fst gameObjects) /\
  Forall (fun kv => LveGameObject.getId (snd kv) = fst kv) gameObjects.

(** *** Frame data (the frame-info header at the end of unit_system.cpp) *)

Definition MAX_LIGHTS : Z := 100.

Module PointLight.
Record t := mk {
  position : glm.vec4;  (* ignore w *)
  color : glm.vec4      (* w is intensity *)
}.
Definition set_position (p : t) (v : glm.vec4) : t := mk v (color p).
Definition set_color (p : t) (v : glm.vec4) : t := mk (position p) v.
End PointLight.

Module GlobalUbo.
Record t := mk {
  projection : glm.mat4;
  view : glm.mat4;
  inverseView : glm.mat4;
  ambientLightColor : glm.vec4;
  pointLights : list PointLight.t;   (* an array of [MAX_LIGHTS] entries *)
  numLights : Z
}.
Definition set_pointLights (u : t) (a : list PointLight.t) : t :=
  mk (projection u) (view u) (inverseView u) (ambientLightColor u) a
     (numLights u).
Definition set_numLights (u : t) (n : Z) : t :=
  mk (projection u) (view u) (inverseView u) (ambientLightColor u)
     (pointLights u) n.
End GlobalUbo.

(** [a[i]] of a C array, as an lvalue that [f] rewrites.  Every use below
    is guarded by the assertion [i < MAX_LIGHTS], with [i] counted up from
    zero; outside the array the list is left as it is. *)
Fixpoint modify_nth {A} (n : nat) (f : A -> A) (a : list A) : list A :=
  match a, n with
  | [], _ => []
  | x :: a', O => f x :: a'
  | x :: a', S n' => x :: modify_nth n' f a'
  end.

Definition modify_at {A} (i : Z) (f : A -> A) (a : list A) : list A :=
  if i <? 0 then a else modify_nth (Z.to_nat i) f a.

(** *** The command buffer

    What the passes record into [frameInfo.commandBuffer], in order. *)

Module UnitPushConstants.
Record t := mk {
  position : glm.vec4;
  color : glm.vec4;
  radius : float
}.
End UnitPushConstants.

Inductive Command :=
| PipelineBind                                   (* [lvePipeline->bind] *)
| CmdBindDescriptorSets (firstSet : Z) (descriptorSets : list Z)
                                                 (* [vkCmdBindDescriptorSets] *)
| CmdPushConstants (push : UnitPushConstants.t)  (* [vkCmdPushConstants] *)
| CmdDraw (vertexCount instanceCount firstVertex firstInstance : Z).

Module Camera.
(** Modelled from the spec: the camera class is declared in the camera
    header, which is not among the sources; the render pass only reads its
    position. *)
Record t := mk { getPosition : glm.vec3 }.
End Camera.

Module FrameInfo.
Record t := mk {
  frameIndex : Z;
  frameTime : float;
  commandBuffer : list Command;
  camera : Camera.t;
  globalDescriptorSet : Z;            (* a [VkDescriptorSet] handle *)
  gameObjects : LveGameObject.Map
}.
Definition set_commandBuffer (fi : t) (cb : list Command) : t :=
  mk (frameIndex fi) (frameTime fi) cb (camera fi) (globalDescriptorSet fi)
     (gameObjects fi).
Definition set_gameObjects (fi : t) (m : LveGameObject.Map) : t :=
  mk (frameIndex fi) (frameTime fi) (commandBuffer fi) (camera fi)
     (globalDescriptorSet fi) m.
End FrameInfo.

(** *** [std::map<float, id_t>]

    The map keeps its entries in ascending key order under [<]; two keys
    neither of which is below the other are the same key.  (With a NaN key
    [<] is no strict weak order and C++ leaves the behaviour undefined; the
    statements below that depend on the order exclude NaN.) *)

Module std_map.

Definition t : Type := list (float * id_t).

(** [m[k] = v]: a new entry at its place in the order, or the mapped value
    of the entry with an equivalent key overwritten. *)
Fixpoint assign (m : t) (k : float) (v : id_t) : t :=
  match m with
  | [] => [(k, v)]
  | (k', v') :: m' =>
      if F32.ltb k k' then (k, v) :: (k', v') :: m'
      else if F32.ltb k' k then (k', v') :: assign m' k v
      else (k', v) :: m'
  end.

(** The entries from [rbegin()] to [rend()]. *)
Definition reversed (m : t) : list (float * id_t) := rev m.

End std_map.

(** *** [UnitSystem::render] *)

(** The squared distance the first loop computes for an object. *)
Definition disSquared (frameInfo : FrameInfo.t) (obj : LveGameObject.t) : float :=
  let offset :=
    glm.sub3 (Camera.getPosition (FrameInfo.camera frameInfo))
             (TransformComponent.translation (LveGameObject.transform obj)) in
  glm.dot offset offset.

(** The first loop: the lights are entered into [sorted] by distance. *)
Definition render_sort (frameInfo : FrameInfo.t) : std_map.t :=
  fold_left
    (fun sorted kv =>
       let obj := snd kv in
       match LveGameObject.pointLight obj with
       | None => sorted                                    (* [continue] *)
       | Some _ =>
           std_map.assign sorted (disSquared frameInfo obj)
                          (LveGameObject.getId obj)
       end)
    (FrameInfo.gameObjects frameInfo) [].

(** One iteration of the second loop. *)
Definition render_draw (frameInfo : FrameInfo.t)
    (commandBuffer : list Command) (it : float * id_t) : result (list Command) :=
  obj <- LveGameObject.at_ (FrameInfo.gameObjects frameInfo) (snd it) ;;
  match LveGameObject.pointLight obj with
  | None => raise null_dereference
  | Some light =>
      let push := UnitPushConstants.mk
        (glm.vec4_of
           (TransformComponent.translation (LveGameObject.transform obj))
           F32.one)
        (glm.vec4_of (LveGameObject.color obj)
           (PointLightComponent.lightIntensity light))
        (glm.x3 (TransformComponent.scale (LveGameObject.transform obj))) in
      ret (commandBuffer ++ [CmdPushConstants push; CmdDraw 6 1 0 0])
  end.

(** The second loop, over the entries of [sorted] in reverse. *)
Fixpoint render_loop (frameInfo : FrameInfo.t) (commandBuffer : list Command)
    (its : list (float * id_t)) : result (list Command) :=
  match its with
  | [] => ret commandBuffer
  | it :: its' =>
      commandBuffer <- render_draw frameInfo commandBuffer it ;;
      render_loop frameInfo commandBuffer its'
  end.

Definition render (frameInfo : FrameInfo.t) : result FrameInfo.t :=
  let sorted := render_sort frameInfo in
  let commandBuffer := FrameInfo.commandBuffer frameInfo ++ [PipelineBind] in
  let commandBuffer :=
    commandBuffer
      ++ [CmdBindDescriptorSets 0 [FrameInfo.globalDescriptorSet frameInfo]] in
  commandBuffer <-
    render_loop frameInfo commandBuffer (std_map.reversed sorted) ;;
  ret (FrameInfo.set_commandBuffer frameInfo commandBuffer).

(** *** [UnitSystem::update] *)

Section Update.

(** [glm::rotate(m, angle, axis)] builds its matrix from the sine and
    cosine of the angle; it is a parameter of the pass. *)
Variable glm_rotate : glm.mat4 -> float -> glm.vec3 -> glm.mat4.

(** The body of the loop for one light: its translation is rotated and
    the light is copied to the slot [lightIndex] of the uniform block. *)
Definition update_light (rotateLight : glm.mat4) (obj : LveGameObject.t)
    (light : PointLightComponent.t) (ubo : GlobalUbo.t) (lightIndex : Z)
    : LveGameObject.t * GlobalUbo.t :=
  let translation :=
    glm.vec3_of
      (glm.mul_mat4_vec4 rotateLight
         (glm.vec4_of
            (TransformComponent.translation (LveGameObject.transform obj))
            F32.one)) in
  let obj :=
    LveGameObject.mk (LveGameObject.getId obj)
      (TransformComponent.mk translation
         (TransformComponent.scale (LveGameObject.transform obj)))
      (LveGameObject.color obj) (LveGameObject.pointLight obj) in
  let ubo :=
    GlobalUbo.set_pointLights ubo
      (modify_at lightIndex
         (fun p => PointLight.set_position p (glm.vec4_of translation F32.one))
         (GlobalUbo.pointLights ubo)) in
  let ubo :=
    GlobalUbo.set_pointLights ubo
      (modify_at lightIndex
         (fun p => PointLight.set_color p
            (glm.vec4_of (LveGameObject.color obj)
               (PointLightComponent.lightIntensity light)))
         (GlobalUbo.pointLights ubo)) in
  (obj, ubo).

(** The loop over the entries; the objects are updated in place, so the
    map keeps its keys and its order. *)
Fixpoint update_loop (rotateLight : glm.mat4)
    (entries : LveGameObject.Map) (ubo : GlobalUbo.t) (lightIndex : Z)
    : result (LveGameObject.Map * GlobalUbo.t * Z) :=
  match entries with
  | [] => ret ([], ubo, lightIndex)
  | (key, obj) :: entries' =>
      match LveGameObject.pointLight obj with
      | None =>                                          (* [continue] *)
          '(done, ubo, lightIndex) <-
            update_loop rotateLight entries' ubo lightIndex ;;
          ret ((key, obj) :: done, ubo, lightIndex)
      | Some light =>
          _ <- assert (lightIndex <? MAX_LIGHTS) ;;
          let '(obj, ubo) :=
            update_light rotateLight obj light ubo lightIndex in
          let lightIndex := lightIndex + 1 in
          '(done, ubo, lightIndex) <-
            update_loop rotateLight entries' ubo lightIndex ;;
          ret ((key, obj) :: done, ubo, lightIndex)
      end
  end.

Definition update (frameInfo : FrameInfo.t) (ubo : GlobalUbo.t)
    : result (FrameInfo.t * GlobalUbo.t) :=
  let rotateLight :=
    glm_rotate (glm.mat4_diag F32.one)
      (F32.half * FrameInfo.frameTime frameInfo)%f32
      (glm.mk_vec3 F32.neg_half F32.neg_one F32.zero) in
  let lightIndex := 0 in
  '(gameObjects, ubo, lightIndex) <-
    update_loop rotateLight (FrameInfo.gameObjects frameInfo) ubo lightIndex ;;
  let ubo := GlobalUbo.set_numLights ubo lightIndex in
  ret (FrameInfo.set_gameObjects frameInfo gameObjects, ubo).

End Update.

(** *** A small scene *)

Definition v3 (x y z : Z) : glm.vec3 :=
  glm.mk_vec3 (F32.lit x 0) (F32.lit y 0) (F32.lit z 0).

Definition light_at (id : id_t) (x : Z) : LveGameObject.t :=
  LveGameObject.mk id
    (TransformComponent.mk (v3 x 0 0) (v3 1 1 1))
    (v3 1 1 1) (Some (PointLightComponent.mk F32.half)).

Definition frame_of (gameObjects : LveGameObject.Map) : FrameInfo.t :=
  FrameInfo.mk 0 F32.zero [] (Camera.mk (v3 0 0 0)) 0 gameObjects.

(** ** The vocabulary of the statements *)

(** The objects of the scene that are point lights, in iteration order. *)
Definition is_light (obj : LveGameObject.t) : bool :=
  match LveGameObject.pointLight obj with
  | Some _ => true
  | None => false
  end.

Definition lights (gameObjects : LveGameObject.Map) : list LveGameObject.t :=
  filter is_light (map snd gameObjects).

(** [obj.pointLight->lightIntensity], for an object that is a light. *)
Definition lightIntensity_of (obj : LveGameObject.t) : float :=
  match LveGameObject.pointLight obj with
  | Some light => PointLightComponent.lightIntensity light
  | None => F32.zero
  end.

(** The shader record of a light, and the two commands of its draw call. *)
Definition shader_record (obj : LveGameObject.t) : UnitPushConstants.t :=
  UnitPushConstants.mk
    (glm.vec4_of (TransformComponent.translation (LveGameObject.transform obj))
       F32.one)
    (glm.vec4_of (LveGameObject.color obj) (lightIntensity_of obj))
    (glm.x3 (TransformComponent.scale (LveGameObject.transform obj))).

Definition draw_of (obj : LveGameObject.t) : list Command :=
  [CmdPushConstants (shader_record obj); CmdDraw 6 1 0 0].

(** The shader records a command buffer holds, in order. *)
Definition pushed (commandBuffer : list Command) : list UnitPushConstants.t :=
  flat_map (fun c => match c with CmdPushConstants p => [p] | _ => [] end)
           commandBuffer.

Section LastWins.

Context {A : Type} (d : A -> float) (i : A -> id_t).

(** The elements that no later element equals in distance. *)
Fixpoint winners (os : list A) : list A :=
  match os with
  | [] => []
  | o :: os' =>
      if existsb (fun o' => F32.eqb (d o') (d o)) os' then winners os'
      else o :: winners os'
  end.

(** The map after the elements were assigned into it one by one. *)
Definition fill (os : list A) (m : std_map.t) : std_map.t :=
  fold_left (fun m o => std_map.assign m (d o) (i o)) os m.

(** The map entry [e] stands for the element [o] of [W]. *)
Definition represents (W : list A) (e : float * id_t) (o : A) : Prop :=
  In o W /\ i o = snd e /\ F32.eqb (fst e) (d o) = true.

End LastWins.

(** The entries of a map in ascending key order, none of them NaN. *)
Definition entry_lt (a b : float * id_t) : Prop :=
  F32.ltb (fst a) (fst b) = true.

Definition ordered (m : std_map.t) : Prop := StronglySorted entry_lt m.

Definition keys_ok (m : std_map.t) : Prop :=
  Forall (fun e => F32.is_nan (fst e) = false) m.

(** The map entry [it] makes the pass draw the light [obj]. *)
Definition drawn_as (frameInfo : FrameInfo.t) (it : float * id_t)
    (obj : LveGameObject.t) : Prop :=
  In obj (lights (FrameInfo.gameObjects frameInfo)) /\
  LveGameObject.getId obj = snd it.

(** Farther first: [a] is drawn before [b] only if [b] is nearer. *)
Definition farther_first (frameInfo : FrameInfo.t)
    (a b : LveGameObject.t) : Prop :=
  F32.ltb (disSquared frameInfo b) (disSquared frameInfo a) = true.


(** The distinct values of a list of keys. *)
Definition distinct (keys : list float) : list float :=
  winners (fun k => k) keys.

(** What the update pass makes of an object and of the uniform block. *)
Section UpdateVocabulary.

Variable glm_rotate : glm.mat4 -> float -> glm.vec3 -> glm.mat4.

(** The matrix of the frame: a rotation about the axis (-0.5, -1, 0) by
    half the frame time, in radians. *)
Definition rotateLight_of (frameInfo : FrameInfo.t) : glm.mat4 :=
  glm_rotate (glm.mat4_diag F32.one)
    (F32.half * FrameInfo.frameTime frameInfo)%f32
    (glm.mk_vec3 F32.neg_half F32.neg_one F32.zero).

(** The object with its translation multiplied by the matrix. *)
Definition rotated (rotateLight : glm.mat4) (obj : LveGameObject.t)
    : LveGameObject.t :=
  LveGameObject.mk (LveGameObject.getId obj)
    (TransformComponent.mk
       (glm.vec3_of
          (glm.mul_mat4_vec4 rotateLight
             (glm.vec4_of
                (TransformComponent.translation (LveGameObject.transform obj))
                F32.one)))
       (TransformComponent.scale (LveGameObject.transform obj)))
    (LveGameObject.color obj) (LveGameObject.pointLight obj).

(** Lights move, other objects stay. *)
Definition advance (rotateLight : glm.mat4) (kv : id_t * LveGameObject.t)
    : id_t * LveGameObject.t :=
  if is_light (snd kv) then (fst kv, rotated rotateLight (snd kv)) else kv.

End UpdateVocabulary.

(** The entry of the uniform block for a light. *)
Definition ubo_record (obj : LveGameObject.t) : PointLight.t :=
  PointLight.mk
    (glm.vec4_of (TransformComponent.translation (LveGameObject.transform obj))
       F32.one)
    (glm.vec4_of (LveGameObject.color obj) (lightIntensity_of obj)).

(** Three lights on the x axis at 1, 3 and 2 units from a camera at the
    origin: squared distances 1, 9 and 4. *)
Definition three_lights : LveGameObject.Map :=
  [(0, light_at 0 1); (1, light_at 1 3); (2, light_at 2 2)].

(** Two lights at the same distance on either side of the camera. *)
Definition two_lights_tied : LveGameObject.Map :=
  [(0, light_at 0 2); (1, light_at 1 (-2))].

(** A uniform block as it is before the first frame: identity matrices,
    the default ambient light, a zeroed light array and no lights. *)
Definition zero4 : glm.vec4 := glm.mk_vec4 F32.zero F32.zero F32.zero F32.zero.

Definition ubo_initial : GlobalUbo.t :=
  GlobalUbo.mk (glm.mat4_diag F32.one) (glm.mat4_diag F32.one)
    (glm.mat4_diag F32.one)
    (glm.mk_vec4 F32.one F32.one F32.one (F32.lit 5368709 (-28)))
    (repeat (PointLight.mk zero4 zero4) (Z.to_nat MAX_LIGHTS)) 0.

(** A stand-in for [glm::rotate] that returns its matrix argument, as a
    rotation by a zero angle does. *)
Definition rotate_none (m : glm.mat4) (angle : float) (axis : glm.vec3)
    : glm.mat4 := m.

(** The reading of the specification under which one pass does everything:
    the pass that moves the lights has also emitted the records, and the
    pass that emits the records has also moved the lights. *)
Definition one_pass_does_all : Prop :=
  forall glm_rotate frameInfo ubo frameInfo1 ubo1 frameInfo2,
    update glm_rotate frameInfo ubo = inr (frameInfo1, ubo1) ->
    render frameInfo = inr frameInfo2 ->
    pushed (FrameInfo.commandBuffer frameInfo1) =
      pushed (FrameInfo.commandBuffer frameInfo2) /\
    FrameInfo.gameObjects frameInfo2 = FrameInfo.gameObjects frameInfo1.

(** A float with a clear sign bit, or NaN. *)
Definition not_negative (x : float) : Prop :=
  match x with
  | S754_nan => True
  | S754_zero s | S754_infinity s | S754_finite s _ _ => s = false
  end.

(** What the update pass keeps of the uniform block: all but the contents
    of the light array and the light count. *)
Definition same_block_but_lights (ubo ubo' : GlobalUbo.t) : Prop :=
  GlobalUbo.projection ubo' = GlobalUbo.projection ubo /\
  GlobalUbo.view ubo' = GlobalUbo.view ubo /\
  GlobalUbo.inverseView ubo' = GlobalUbo.inverseView ubo /\
  GlobalUbo.ambientLightColor ubo' = GlobalUbo.ambientLightColor ubo /\
  length (GlobalUbo.pointLights ubo') = length (GlobalUbo.pointLights ubo).

(** A float that is a number: a zero or a finite value. *)
Definition is_finite (x : float) : bool :=
  match x with
  | S754_zero _ | S754_finite _ _ _ => true
  | S754_infinity _ | S754_nan => false
  end.

Definition finite3 (v : glm.vec3) : Prop :=
  is_finite (glm.x3 v) = true /\ is_finite (glm.y3 v) = true /\
  is_finite (glm.z3 v) = true.

(** *** The generator's two branches *)

Lemma sierpinski_base vertices depth left_ right_ top :
  depth <= 0 ->
  sierpinski vertices depth left_ right_ top =
  vertices ++ [mk_Vertex top red; mk_Vertex right_ green; mk_Vertex left_ blue].
Proof.
  intros Hd. rewrite sierpinski_equation_1.
  destruct (Z_le_gt_dec depth 0) as [Hle | Hgt]; [| lia].
  rewrite sierpinski_clause_1_equation_1.
  cbn. unfold push_back. now rewrite <- !app_assoc.
Qed.

Lemma sierpinski_step vertices depth left_ right_ top :
  depth > 0 ->
  sierpinski vertices depth left_ right_ top =
  sierpinski
    (sierpinski
       (sierpinski vertices (depth - 1) left_ (midpoint left_ right_)
          (midpoint left_ top))
       (depth - 1) (midpoint left_ right_) right_ (midpoint right_ top))
    (depth - 1) (midpoint left_ top) (midpoint right_ top) top.
Proof.
  intros Hd. rewrite sierpinski_equation_1.
  destruct (Z_le_gt_dec depth 0) as [Hle | Hgt]; [lia |].
  now rewrite sierpinski_clause_1_equation_2.
Qed.

(** Induction on the depth, in the shape of the recursion: the base branch
    for [depth <= 0], and the step from [depth - 1] to [depth > 0]. *)
Lemma depth_ind (P : Z -> Prop) :
  (forall depth, depth <= 0 -> P depth) ->
  (forall depth, depth > 0 -> P (depth - 1) -> P depth) ->
  forall depth, P depth.
Proof.
  intros Hbase Hstep depth.
  destruct (Z_le_gt_dec depth 0) as [Hle | Hgt]; [now apply Hbase |].
  assert (H0 : 0 <= depth) by lia.
  revert Hgt. pattern depth. apply natlike_ind; [lia | | exact H0].
  intros d Hd IH _. apply Hstep; [lia |].
  replace (Z.succ d - 1) with d by lia.
  destruct (Z.eq_dec d 0) as [-> | Hne]; [apply Hbase; lia | apply IH; lia].
Qed.

(** The calls only append: the vector on return is the vector on entry
    followed by what the same call emits on an empty vector. *)
Lemma sierpinski_appends depth :
  forall vertices left_ right_ top,
    sierpinski vertices depth left_ right_ top =
    vertices ++ generate depth left_ right_ top.
Proof.
  unfold generate. pattern depth. apply depth_ind; clear depth.
  - intros depth Hd vertices l r t. now rewrite !sierpinski_base.
  - intros depth Hd IH vertices l r t.
    assert (Hthree : forall v,
      sierpinski v depth l r t =
      v ++ sierpinski [] (depth - 1) l (midpoint l r) (midpoint l t)
        ++ sierpinski [] (depth - 1) (midpoint l r) r (midpoint r t)
        ++ sierpinski [] (depth - 1) (midpoint l t) (midpoint r t) t).
    { intros v. rewrite sierpinski_step by assumption.
      rewrite (IH (sierpinski (sierpinski v _ _ _ _) _ _ _ _)).
      rewrite (IH (sierpinski v _ _ _ _)), (IH v).
      now rewrite <- !app_assoc. }
    now rewrite (Hthree vertices), (Hthree []).
Qed.

Lemma generate_step depth left_ right_ top :
  depth > 0 ->
  generate depth left_ right_ top =
  generate (depth - 1) left_ (midpoint left_ right_) (midpoint left_ top) ++
  generate (depth - 1) (midpoint left_ right_) right_ (midpoint right_ top) ++
  generate (depth - 1) (midpoint left_ top) (midpoint right_ top) top.
Proof.
  intros Hd. unfold generate at 1. rewrite sierpinski_step by assumption.
  rewrite (sierpinski_appends _ (sierpinski (sierpinski _ _ _ _ _) _ _ _ _)).
  rewrite (sierpinski_appends _ (sierpinski _ _ _ _ _)).
  fold (generate (depth - 1) left_ (midpoint left_ right_) (midpoint left_ top)).
  now rewrite <- app_assoc.
Qed.

Lemma generate_length depth :
  forall left_ right_ top,
    0 <= depth ->
    Z.of_nat (length (generate depth left_ right_ top)) = 3 * 3 ^ depth.
Proof.
  pattern depth. apply depth_ind; clear depth.
  - intros depth Hd l r t H0. assert (depth = 0) as -> by lia.
    unfold generate. now rewrite sierpinski_base.
  - intros depth Hd IH l r t _.
    rewrite generate_step by assumption.
    rewrite !length_app, !Nat2Z.inj_add, !IH by lia.
    replace depth with (Z.succ (depth - 1)) at 4 by lia.
    rewrite Z.pow_succ_r by lia. lia.
Qed.

(** ** The order of binary32

    [<] on the floats that are not NaN is a strict weak order.  Each such
    float is ranked by a triple of integers, compared lexicographically. *)

Module F32Order.

Import F32.

Lemma compare_rank x y :
  F32.is_nan x = false -> F32.is_nan y = false ->
  exists c, SFcompare x y = Some c /\
    match c with
    | Lt => lex_lt (rank x) (rank y)
    | Eq => rank x = rank y
    | Gt => lex_lt (rank y) (rank x)
    end.
Proof.
  destruct x as [sx | sx | | sx mx ex], y as [sy | sy | | sy my ey];
    cbn; try discriminate; intros _ _;
    try destruct sx; try destruct sy; cbn;
    try (eexists; split; [reflexivity |]; cbn; first [reflexivity | lia]).
  all: change (PosDef.Pos.compare_cont Eq mx my) with (Pos.compare mx my).
  all: destruct (Z.compare_spec ex ey) as [-> | Hlt | Hgt];
    [destruct (Pos.compare_spec mx my) as [-> | Hm | Hm] | |].
  all: eexists; (split; [reflexivity |]); cbn; first [reflexivity | lia].
Qed.

Lemma ltb_rank x y :
  F32.ltb x y = true <->
  F32.is_nan x = false /\ F32.is_nan y = false /\ lex_lt (rank x) (rank y).
Proof.
  unfold F32.ltb, SFltb. split.
  - destruct (F32.is_nan x) eqn:Hx; [now destruct x |].
    destruct (F32.is_nan y) eqn:Hy; [now destruct x, y |].
    destruct (compare_rank x y Hx Hy) as [c [-> Hc]].
    now destruct c.
  - intros (Hx & Hy & Hlt).
    destruct (compare_rank x y Hx Hy) as [c [-> Hc]].
    destruct c; [| reflexivity |]; exfalso;
      destruct (rank x) as [[a b] c], (rank y) as [[a' b'] c'];
      cbn in *; [injection Hc as -> -> -> |]; lia.
Qed.

Lemma eqb_rank x y :
  F32.eqb x y = true <->
  F32.is_nan x = false /\ F32.is_nan y = false /\ rank x = rank y.
Proof.
  unfold F32.eqb, SFeqb. split.
  - destruct (F32.is_nan x) eqn:Hx; [now destruct x |].
    destruct (F32.is_nan y) eqn:Hy; [now destruct x, y |].
    destruct (compare_rank x y Hx Hy) as [c [-> Hc]].
    now destruct c.
  - intros (Hx & Hy & Heq).
    destruct (compare_rank x y Hx Hy) as [c [-> Hc]].
    destruct c; [reflexivity | |]; exfalso; rewrite Heq in Hc;
      destruct (rank y) as [[a b] c]; cbn in *; lia.
Qed.

Lemma ltb_irrefl x : F32.ltb x x = false.
Proof.
  destruct (F32.ltb x x) eqn:H; [| reflexivity].
  apply ltb_rank in H. destruct H as (_ & _ & H).
  destruct (rank x) as [[a b] c]. cbn in H. lia.
Qed.

Lemma ltb_trans x y z :
  F32.ltb x y = true -> F32.ltb y z = true -> F32.ltb x z = true.
Proof.
  rewrite !ltb_rank. intros (Hx & _ & Hxy) (_ & Hz & Hyz).
  repeat split; try assumption.
  destruct (rank x) as [[a b] c], (rank y) as [[a' b'] c'],
    (rank z) as [[a'' b''] c'']. cbn in *. lia.
Qed.

(** Two floats that are not NaN are ordered one way, or equal. *)
Lemma trichotomy x y :
  F32.is_nan x = false -> F32.is_nan y = false ->
  F32.ltb x y = true \/ F32.eqb x y = true \/ F32.ltb y x = true.
Proof.
  intros Hx Hy. rewrite !ltb_rank, eqb_rank.
  destruct (rank x) as [[a b] c] eqn:Rx, (rank y) as [[a' b'] c'] eqn:Ry.
  cbn.
  assert (C : (a < a' \/ a = a' /\ (b < b' \/ b = b' /\ c < c')) \/
              (a = a' /\ b = b' /\ c = c') \/
              (a' < a \/ a' = a /\ (b' < b \/ b' = b /\ c' < c))) by lia.
  destruct C as [C | [(-> & -> & ->) | C]]; auto 10.
Qed.

Lemma eqb_not_ltb x y : F32.eqb x y = true -> F32.ltb x y = false.
Proof.
  intros H. destruct (F32.ltb x y) eqn:L; [| reflexivity].
  apply eqb_rank in H. apply ltb_rank in L.
  destruct H as (_ & _ & H), L as (_ & _ & L). rewrite H in L.
  destruct (rank y) as [[a b] c]. cbn in L. lia.
Qed.

Lemma eqb_sym x y : F32.eqb x y = F32.eqb y x.
Proof.
  destruct (F32.eqb x y) eqn:H1, (F32.eqb y x) eqn:H2; try reflexivity.
  - apply eqb_rank in H1. destruct H1 as (? & ? & ?).
    assert (F32.eqb y x = true) by (apply eqb_rank; auto). congruence.
  - apply eqb_rank in H2. destruct H2 as (? & ? & ?).
    assert (F32.eqb x y = true) by (apply eqb_rank; auto). congruence.
Qed.

Lemma eqb_refl x : F32.is_nan x = false -> F32.eqb x x = true.
Proof. intros H. apply eqb_rank. auto. Qed.

Lemma eqb_trans x y z :
  F32.eqb x y = true -> F32.eqb y z = true -> F32.eqb x z = true.
Proof.
  rewrite !eqb_rank. intros (? & ? & ?) (? & ? & ?).
  repeat split; congruence.
Qed.

(** [<] does not tell equal floats apart. *)
Lemma ltb_eqb_l x x' y :
  F32.eqb x x' = true -> F32.ltb x y = F32.ltb x' y.
Proof.
  intros H. apply eqb_rank in H. destruct H as (Hx & Hx' & Hr).
  destruct (F32.ltb x y) eqn:L1, (F32.ltb x' y) eqn:L2; try reflexivity.
  - apply ltb_rank in L1. destruct L1 as (_ & Hy & L1). rewrite Hr in L1.
    assert (F32.ltb x' y = true) by (apply ltb_rank; auto). congruence.
  - apply ltb_rank in L2. destruct L2 as (_ & Hy & L2). rewrite <- Hr in L2.
    assert (F32.ltb x y = true) by (apply ltb_rank; auto). congruence.
Qed.

Lemma ltb_eqb_r x y y' :
  F32.eqb y y' = true -> F32.ltb x y = F32.ltb x y'.
Proof.
  intros H. apply eqb_rank in H. destruct H as (Hy & Hy' & Hr).
  destruct (F32.ltb x y) eqn:L1, (F32.ltb x y') eqn:L2; try reflexivity.
  - apply ltb_rank in L1. destruct L1 as (Hx & _ & L1). rewrite Hr in L1.
    assert (F32.ltb x y' = true) by (apply ltb_rank; auto). congruence.
  - apply ltb_rank in L2. destruct L2 as (Hx & _ & L2). rewrite <- Hr in L2.
    assert (F32.ltb x y = true) by (apply ltb_rank; auto). congruence.
Qed.

Lemma ltb_not_eqb x y : F32.ltb x y = true -> F32.eqb x y = false.
Proof.
  intros L. destruct (F32.eqb x y) eqn:E; [| reflexivity].
  apply eqb_not_ltb in E. congruence.
Qed.

Lemma ltb_not_nan_l x y : F32.ltb x y = true -> F32.is_nan x = false.
Proof. intros H. now apply ltb_rank in H. Qed.

Lemma ltb_not_nan_r x y : F32.ltb x y = true -> F32.is_nan y = false.
Proof. intros H. now apply ltb_rank in H. Qed.

End F32Order.

(** ** Lists sorted by a relation *)

Section SortedLists.

Context {A : Type} (R : A -> A -> Prop).

Lemma sorted_app (l1 l2 : list A) :
  StronglySorted R (l1 ++ l2) <->
  StronglySorted R l1 /\ StronglySorted R l2 /\
  (forall a b, In a l1 -> In b l2 -> R a b).
Proof.
  induction l1 as [| x l1 IH]; cbn.
  - split; [intros H | intros (_ & H & _); exact H].
    repeat split; [constructor | exact H | contradiction].
  - split.
    + intros H. apply StronglySorted_inv in H. destruct H as [Hs Hall].
      apply IH in Hs. destruct Hs as (H1 & H2 & H12).
      rewrite Forall_app in Hall. destruct Hall as [Ha1 Ha2].
      repeat split; [now constructor | exact H2 |].
      intros a b [<- | Ha] Hb; [| now apply H12].
      rewrite Forall_forall in Ha2. now apply Ha2.
    + intros (H1 & H2 & H12).
      apply StronglySorted_inv in H1. destruct H1 as [Hs Hall].
      constructor.
      * apply IH. repeat split; auto.
      * apply Forall_app. split; [exact Hall |].
        apply Forall_forall. intros b Hb. apply H12; auto.
Qed.

End SortedLists.

Lemma sorted_rev {A} (R : A -> A -> Prop) (l : list A) :
  StronglySorted R l -> StronglySorted (fun a b => R b a) (rev l).
Proof.
  induction 1 as [| x l Hs IH Hall]; cbn; [constructor |].
  apply sorted_app. repeat split; [exact IH | repeat constructor |].
  intros a b Ha [<- | []]. apply in_rev in Ha.
  rewrite Forall_forall in Hall. now apply Hall.
Qed.

Lemma sorted_NoDup {A} (R : A -> A -> Prop) (l : list A) :
  (forall a, ~ R a a) -> StronglySorted R l -> NoDup l.
Proof.
  intros Hirr. induction 1 as [| x l Hs IH Hall]; constructor; [| exact IH].
  intros Hin. rewrite Forall_forall in Hall. exact (Hirr x (Hall x Hin)).
Qed.

(** ** [std::map]: what an assignment does to a sorted map *)

Section MapAssign.

(** The assignment leaves the entries below and above the key in place,
    with one entry for the key between them: a new one, or the old one
    with its value replaced. *)
Lemma assign_split (m : std_map.t) (k : float) (v : id_t) :
  ordered m -> keys_ok m -> F32.is_nan k = false ->
  exists pre k' post,
    std_map.assign m k v = pre ++ (k', v) :: post /\
    F32.eqb k' k = true /\
    Forall (fun e => F32.ltb (fst e) k = true) pre /\
    Forall (fun e => F32.ltb k (fst e) = true) post /\
    (m = pre ++ post \/ exists v0, m = pre ++ (k', v0) :: post).
Proof.
  intros Hs Hk Hnan. induction m as [| [k1 v1] m IH]; cbn.
  - exists [], k, []. repeat split; auto.
    now apply F32Order.eqb_refl.
  - apply StronglySorted_inv in Hs. destruct Hs as [Hs Hall].
    inversion Hk as [| ? ? Hk1 Hkm]; subst. cbn in Hk1.
    destruct (F32.ltb k k1) eqn:L1.
    + exists [], k, ((k1, v1) :: m). repeat split; auto.
      * now apply F32Order.eqb_refl.
      * constructor; [exact L1 |].
        eapply Forall_impl; [| exact Hall]. intros e He.
        eapply F32Order.ltb_trans; [exact L1 | exact He].
    + destruct (F32.ltb k1 k) eqn:L2.
      * destruct (IH Hs Hkm) as (pre & k' & post & E & Heq & Hpre & Hpost & Hm).
        exists ((k1, v1) :: pre), k', post. rewrite E.
        repeat split; auto.
        destruct Hm as [-> | [v0 ->]]; [now left | right; now exists v0].
      * assert (Heq : F32.eqb k1 k = true).
        { destruct (F32Order.trichotomy k1 k Hk1 Hnan) as [H | [H | H]];
            congruence. }
        exists [], k1, m. repeat split; auto.
        -- eapply Forall_impl; [| exact Hall]. intros e He.
           unfold entry_lt in He. cbn in He.
           now rewrite <- (F32Order.ltb_eqb_l k1 k).
        -- right. now exists v1.
Qed.

Lemma assign_ordered (m : std_map.t) (k : float) (v : id_t) :
  ordered m -> keys_ok m -> F32.is_nan k = false ->
  ordered (std_map.assign m k v) /\ keys_ok (std_map.assign m k v).
Proof.
  intros Hs Hk Hnan.
  destruct (assign_split m k v Hs Hk Hnan)
    as (pre & k' & post & -> & Heq & Hpre & Hpost & Hm).
  assert (Hparts : ordered pre /\ ordered post /\ keys_ok pre /\ keys_ok post /\
                   (forall a b, In a pre -> In b post -> entry_lt a b)).
  { unfold ordered, keys_ok in *.
    destruct Hm as [-> | [v0 ->]].
    - apply sorted_app in Hs. rewrite Forall_app in Hk. tauto.
    - apply sorted_app in Hs. destruct Hs as (H1 & H2 & H12).
      apply StronglySorted_inv in H2. rewrite Forall_app in Hk.
      destruct Hk as [Hk1 Hk2]. inversion Hk2; subst.
      repeat split; try tauto. intros a b Ha Hb. apply H12; cbn; auto. }
  destruct Hparts as (Hp1 & Hp2 & Hk1 & Hk2 & H12).
  rewrite Forall_forall in Hpre, Hpost.
  split.
  - apply sorted_app. repeat split; [exact Hp1 | |].
    + constructor; [exact Hp2 |]. apply Forall_forall. intros e He.
      unfold entry_lt. cbn. rewrite (F32Order.ltb_eqb_l k' k) by exact Heq.
      now apply Hpost.
    + intros a b Ha [<- | Hb]; [| now apply H12].
      unfold entry_lt. cbn. rewrite (F32Order.ltb_eqb_r _ k' k) by exact Heq.
      now apply Hpre.
  - apply Forall_app. split; [exact Hk1 |]. constructor; [| exact Hk2].
    cbn. apply F32Order.eqb_rank in Heq. tauto.
Qed.

End MapAssign.

(** ** Filling the map: the last light of each distance wins *)

Section LastWinsFacts.

Context {A : Type} (d : A -> float).

Lemma winners_incl (os : list A) x : In x (winners d os) -> In x os.
Proof.
  induction os as [| o os IH]; cbn; [tauto |].
  destruct (existsb _ os); cbn; intuition.
Qed.

Lemma winners_NoDup (os : list A) : NoDup os -> NoDup (winners d os).
Proof.
  induction 1 as [| o os Hin Hnd IH]; cbn; [constructor |].
  destruct (existsb _ os); [exact IH |].
  constructor; [| exact IH]. intros H. apply Hin. eapply winners_incl, H.
Qed.

Lemma winners_snoc (os : list A) (o x : A) :
  F32.is_nan (d o) = false ->
  In x (winners d (os ++ [o])) <->
  x = o \/ (In x (winners d os) /\ F32.eqb (d o) (d x) = false).
Proof.
  intros Hnan. induction os as [| a os IH]; cbn.
  - intuition.
  - rewrite existsb_app. cbn. rewrite orb_false_r.
    destruct (existsb (fun o' => F32.eqb (d o') (d a)) os) eqn:E; cbn.
    + exact IH.
    + destruct (F32.eqb (d o) (d a)) eqn:Eo; cbn; rewrite IH.
      * split; [tauto |]. intros [-> | [[<- | H] Hx]]; auto. congruence.
      * split; [| tauto]. intros [<- | [-> | H]]; auto. tauto.
Qed.

Lemma winners_length_keys (os : list A) :
  length (winners d os) = length (distinct (map d os)).
Proof.
  unfold distinct. induction os as [| o os IH]; cbn; [reflexivity |].
  replace (existsb (fun o' => F32.eqb o' (d o)) (map d os))
    with (existsb (fun o' => F32.eqb (d o') (d o)) os).
  - destruct (existsb _ os); cbn; now rewrite IH.
  - clear IH. induction os as [| a os IH]; cbn; [reflexivity |].
    now rewrite IH.
Qed.

(** The elements pairwise differ in distance: none is dropped. *)
Lemma winners_all (os : list A) :
  ForallOrdPairs (fun a b => F32.eqb (d a) (d b) = false) os ->
  winners d os = os.
Proof.
  induction 1 as [| o os Hall Hrest IH]; cbn; [reflexivity |].
  rewrite IH. replace (existsb _ os) with false; [reflexivity |].
  symmetry. apply not_true_is_false. intros H.
  apply existsb_exists in H. destruct H as (o' & Hin & Heq).
  rewrite Forall_forall in Hall. specialize (Hall o' Hin).
  rewrite F32Order.eqb_sym in Heq. congruence.
Qed.

Context (i : A -> id_t).

Lemma fill_snoc (os : list A) (o : A) (m : std_map.t) :
  fill d i (os ++ [o]) m = std_map.assign (fill d i os m) (d o) (i o).
Proof. unfold fill. now rewrite fold_left_app. Qed.

(** The invariant of the first loop of the render pass. *)
Lemma fill_invariant (os : list A) :
  Forall (fun o => F32.is_nan (d o) = false) os ->
  let m := fill d i os [] in
  ordered m /\ keys_ok m /\
  (forall e, In e m -> exists o, represents d i (winners d os) e o) /\
  (forall o, In o (winners d os) ->
     exists k, In (k, i o) m /\ F32.eqb k (d o) = true).
Proof.
  induction os as [| o os IH] using rev_ind; intros Hnan.
  - cbn. repeat split; try constructor; contradiction.
  - rewrite Forall_app in Hnan. destruct Hnan as [Hos Ho].
    inversion Ho as [| ? ? Hdo _]; subst.
    specialize (IH Hos). cbn zeta in *.
    destruct IH as (Hord & Hkeys & HA & HB).
    rewrite fill_snoc.
    destruct (assign_ordered _ (d o) (i o) Hord Hkeys Hdo) as [Hord' Hkeys'].
    destruct (assign_split _ (d o) (i o) Hord Hkeys Hdo)
      as (pre & k' & post & E & Heq & Hpre & Hpost & Hm).
    rewrite Forall_forall in Hpre, Hpost.
    assert (Hold : forall e, In e pre \/ In e post ->
                   In e (fill d i os []) /\ F32.eqb (fst e) (d o) = false).
    { intros e He. split.
      - destruct Hm as [-> | [v0 ->]]; rewrite in_app_iff; cbn; tauto.
      - destruct He as [He | He].
        + now apply F32Order.ltb_not_eqb, Hpre.
        + rewrite F32Order.eqb_sym. now apply F32Order.ltb_not_eqb, Hpost. }
    repeat split; [exact Hord' | exact Hkeys' | |].
    + intros e He. rewrite E in He. apply in_app_iff in He. cbn in He.
      assert (Hcases : e = (k', i o) \/ (In e pre \/ In e post)) by intuition.
      clear He. destruct Hcases as [-> | He].
      * exists o. repeat split; auto. apply winners_snoc; auto.
      * destruct (Hold e He) as [Hin Hne].
        destruct (HA e Hin) as (o1 & Hw & Hi & Hk).
        exists o1. repeat split; auto. apply winners_snoc; [exact Hdo |].
        right. split; [exact Hw |].
        destruct (F32.eqb (d o) (d o1)) eqn:H1; [| reflexivity].
        assert (F32.eqb (fst e) (d o) = true).
        { eapply F32Order.eqb_trans; [exact Hk |].
          now rewrite F32Order.eqb_sym. }
        congruence.
    + intros o1 Hw. apply winners_snoc in Hw; [| exact Hdo].
      destruct Hw as [-> | [Hw Hne]].
      * exists k'. split; [| exact Heq]. rewrite E, in_app_iff. cbn. auto.
      * destruct (HB o1 Hw) as (k & Hin & Hk).
        exists k. split; [| exact Hk]. rewrite E, in_app_iff. cbn.
        destruct Hm as [Hm | [v0 Hm]]; rewrite Hm, in_app_iff in Hin; cbn in Hin.
        -- tauto.
        -- destruct Hin as [Hin | [Hin | Hin]]; auto.
           injection Hin as -> _.
           assert (F32.eqb (d o) (d o1) = true).
           { eapply F32Order.eqb_trans; [| exact Hk].
             now rewrite F32Order.eqb_sym. }
           congruence.
Qed.

End LastWinsFacts.

(** ** The render pass *)

Lemma Forall_exists_Forall2 {A B} (P : A -> B -> Prop) (l : list A) :
  Forall (fun a => exists b, P a b) l -> exists l', Forall2 P l l'.
Proof.
  induction 1 as [| a l [b Hb] _ [l' IH]].
  - exists []. constructor.
  - exists (b :: l'). now constructor.
Qed.

Lemma Forall2_rev_both {A B} (P : A -> B -> Prop) l l' :
  Forall2 P l l' -> Forall2 P (rev l) (rev l').
Proof.
  induction 1; cbn; [constructor |].
  apply Forall2_app; [assumption | repeat constructor; assumption].
Qed.

Lemma NoDup_map_injective {A B} (f : A -> B) (l : list A) a b :
  NoDup (map f l) -> In a l -> In b l -> f a = f b -> a = b.
Proof.
  induction l as [| x l IH]; cbn; [tauto |].
  intros Hnd Ha Hb Hf. inversion Hnd as [| ? ? Hx Hl]; subst.
  destruct Ha as [-> | Ha], Hb as [-> | Hb]; auto.
  - exfalso. apply Hx. rewrite Hf. now apply in_map.
  - exfalso. apply Hx. rewrite <- Hf. now apply in_map.
Qed.

Lemma well_formed_ids gameObjects :
  well_formed gameObjects ->
  NoDup (map LveGameObject.getId (map snd gameObjects)).
Proof.
  intros [Hnd Hid]. replace (map _ (map snd gameObjects))
    with (map fst gameObjects); [exact Hnd |].
  rewrite map_map. apply map_ext_in. intros kv Hin.
  rewrite Forall_forall in Hid. symmetry. now apply Hid.
Qed.

Lemma lights_NoDup gameObjects :
  well_formed gameObjects -> NoDup (map LveGameObject.getId (lights gameObjects)).
Proof.
  intros Hwf. apply well_formed_ids in Hwf. unfold lights.
  induction (map snd gameObjects) as [| o os IH]; cbn; [constructor |].
  inversion Hwf as [| ? ? Hin Hnd]; subst.
  destruct (is_light o); cbn; [| now apply IH].
  constructor; [| now apply IH].
  intros H. apply Hin. apply in_map_iff in H. destruct H as (o' & Ho' & H).
  apply filter_In in H. apply in_map_iff. exists o'. tauto.
Qed.

(** [at] finds every object of the scene under its identifier. *)
Lemma at_found gameObjects obj :
  well_formed gameObjects -> In obj (map snd gameObjects) ->
  LveGameObject.at_ gameObjects (LveGameObject.getId obj) = inr obj.
Proof.
  intros [Hnd Hid]. induction gameObjects as [| [k o] m IH]; cbn; [tauto |].
  inversion Hnd as [| ? ? Hk Hm]; subst.
  inversion Hid as [| ? ? Hko Hidm]; subst. cbn in Hko.
  intros [-> | Hin].
  - now rewrite Hko, Z.eqb_refl.
  - destruct (Z.eqb_spec k (LveGameObject.getId obj)) as [-> | Hne];
      [| now apply IH].
    exfalso. apply Hk. apply in_map_iff in Hin.
    destruct Hin as ([k' o'] & <- & Hin). cbn.
    rewrite Forall_forall in Hidm. pose proof (Hidm _ Hin) as Hk'.
    cbn in Hk'. rewrite Hk'. apply in_map_iff. now exists (k', o').
Qed.

(** The first loop assigns the lights, and only them, in iteration order. *)
Lemma render_sort_fill frameInfo :
  render_sort frameInfo =
  fill (disSquared frameInfo) LveGameObject.getId
       (lights (FrameInfo.gameObjects frameInfo)) [].
Proof.
  unfold render_sort, fill, lights. generalize (@nil (float * id_t)).
  induction (FrameInfo.gameObjects frameInfo) as [| [k o] m IH]; intros acc;
    cbn; [reflexivity |].
  unfold is_light. destruct (LveGameObject.pointLight o); cbn; apply IH.
Qed.

Lemma render_draw_light frameInfo commandBuffer it obj :
  well_formed (FrameInfo.gameObjects frameInfo) ->
  In obj (lights (FrameInfo.gameObjects frameInfo)) ->
  LveGameObject.getId obj = snd it ->
  render_draw frameInfo commandBuffer it = inr (commandBuffer ++ draw_of obj).
Proof.
  intros Hwf Hin Hid. apply filter_In in Hin. destruct Hin as [Hin Hlight].
  unfold render_draw. rewrite <- Hid, (at_found _ _ Hwf Hin). cbn.
  unfold draw_of, shader_record, lightIntensity_of, is_light in *.
  now destruct (LveGameObject.pointLight obj).
Qed.

Lemma render_loop_draws frameInfo its order :
  well_formed (FrameInfo.gameObjects frameInfo) ->
  Forall2 (drawn_as frameInfo) its order ->
  forall commandBuffer,
    render_loop frameInfo commandBuffer its =
    inr (commandBuffer ++ flat_map draw_of order).
Proof.
  intros Hwf. induction 1 as [| it obj its order [Hin Hid] _ IH];
    intros commandBuffer; cbn.
  - now rewrite app_nil_r.
  - rewrite (render_draw_light _ _ _ obj Hwf Hin Hid). cbn.
    rewrite IH. now rewrite <- !app_assoc.
Qed.

Lemma render_draws frameInfo order :
  well_formed (FrameInfo.gameObjects frameInfo) ->
  Forall2 (drawn_as frameInfo) (render_sort frameInfo) order ->
  render frameInfo =
  inr (FrameInfo.set_commandBuffer frameInfo
         (FrameInfo.commandBuffer frameInfo
            ++ [PipelineBind;
                CmdBindDescriptorSets 0
                  [FrameInfo.globalDescriptorSet frameInfo]]
            ++ flat_map draw_of (rev order))).
Proof.
  intros Hwf Hall. unfold render, std_map.reversed.
  rewrite (render_loop_draws _ _ (rev order) Hwf (Forall2_rev_both _ _ _ Hall)).
  cbn. now rewrite <- !app_assoc.
Qed.

(** Whatever the keys are, the map only holds identifiers of lights. *)
Lemma assign_values m k v e :
  In e (std_map.assign m k v) ->
  snd e = v \/ exists e', In e' m /\ snd e' = snd e.
Proof.
  induction m as [| [k1 v1] m IH]; cbn.
  - intros [<- | []]. now left.
  - destruct (F32.ltb k k1).
    + intros [<- | [<- | H]]; [now left | right .. ];
        eexists; split; [left; reflexivity | reflexivity | right; exact H
                        | reflexivity].
    + destruct (F32.ltb k1 k).
      * intros [<- | H].
        -- right. eexists; split; [left; reflexivity | reflexivity].
        -- destruct (IH H) as [Hv | (e' & He' & Hs)]; [now left |].
           right. exists e'. auto.
      * intros [<- | H]; [now left |].
        right. exists e. auto.
Qed.

Lemma fill_values {A} (d : A -> float) (i : A -> id_t) (os : list A) e :
  In e (fill d i os []) -> exists o, In o os /\ i o = snd e.
Proof.
  revert e. induction os as [| o os IH] using rev_ind; intros e; [intros [] |].
  rewrite fill_snoc. intros H. apply assign_values in H.
  destruct H as [H | (e' & He' & Hs)].
  - exists o. rewrite in_app_iff. cbn. auto.
  - destruct (IH e' He') as (o' & Ho' & Hi). exists o'.
    rewrite in_app_iff. split; [auto | congruence].
Qed.

(** The render pass completes on every well-formed scene, drawing lights of
    the scene in the order in which the map is traversed. *)
Lemma render_total frameInfo :
  well_formed (FrameInfo.gameObjects frameInfo) ->
  exists order,
    Forall2 (drawn_as frameInfo) (std_map.reversed (render_sort frameInfo)) order /\
    render frameInfo =
    inr (FrameInfo.set_commandBuffer frameInfo
           (FrameInfo.commandBuffer frameInfo
              ++ [PipelineBind;
                CmdBindDescriptorSets 0
                  [FrameInfo.globalDescriptorSet frameInfo]]
              ++ flat_map draw_of order)).
Proof.
  intros Hwf.
  destruct (Forall_exists_Forall2 (drawn_as frameInfo) (render_sort frameInfo))
    as [os Hos].
  { apply Forall_forall. intros e He. rewrite render_sort_fill in He.
    apply fill_values in He. destruct He as (o & Ho & Hi). now exists o. }
  exists (rev os). split; [now apply Forall2_rev_both |].
  now apply render_draws.
Qed.

Lemma Forall2_in_l {A B} (P : A -> B -> Prop) l l' a :
  Forall2 P l l' -> In a l -> exists b, In b l' /\ P a b.
Proof.
  induction 1 as [| x y l l' Hxy _ IH]; cbn; [tauto |].
  intros [<- | Ha]; [exists y; auto |].
  destruct (IH Ha) as (b & Hb & Hab). exists b. auto.
Qed.

Lemma Forall2_in_r {A B} (P : A -> B -> Prop) l l' b :
  Forall2 P l l' -> In b l' -> exists a, In a l /\ P a b.
Proof.
  induction 1 as [| x y l l' Hxy _ IH]; cbn; [tauto |].
  intros [<- | Hb]; [exists x; auto |].
  destruct (IH Hb) as (a & Ha & Hab). exists a. auto.
Qed.

(** With no NaN among the distances, the pass draws the last light of each
    distance, the farthest first, walking the entries of the map in
    reverse. *)
Lemma render_resolved_entries frameInfo :
  well_formed (FrameInfo.gameObjects frameInfo) ->
  Forall (fun o => F32.is_nan (disSquared frameInfo o) = false)
         (lights (FrameInfo.gameObjects frameInfo)) ->
  exists order,
    render frameInfo =
    inr (FrameInfo.set_commandBuffer frameInfo
           (FrameInfo.commandBuffer frameInfo
              ++ [PipelineBind;
                CmdBindDescriptorSets 0
                  [FrameInfo.globalDescriptorSet frameInfo]]
              ++ flat_map draw_of order)) /\
    Permutation order
      (winners (disSquared frameInfo) (lights (FrameInfo.gameObjects frameInfo))) /\
    StronglySorted (farther_first frameInfo) order /\
    Forall2 (drawn_as frameInfo) (std_map.reversed (render_sort frameInfo)) order.
Proof.
  intros Hwf Hnan.
  pose proof (fill_invariant (disSquared frameInfo) LveGameObject.getId _ Hnan)
    as Hinv.
  cbn zeta in Hinv. rewrite <- render_sort_fill in Hinv.
  destruct Hinv as (Hord & Hkeys & HA & HB).
  set (d := disSquared frameInfo) in *. set (i := LveGameObject.getId) in *.
  set (ls := lights (FrameInfo.gameObjects frameInfo)) in *.
  set (M := render_sort frameInfo) in *.
  destruct (Forall_exists_Forall2 (represents d i (winners d ls)) M) as [os Hos].
  { apply Forall_forall. exact HA. }
  assert (Hdrawn : Forall2 (drawn_as frameInfo) M os).
  { eapply Forall2_impl; [| exact Hos]. intros e o (Hw & Hi & _).
    split; [now apply (winners_incl d) in Hw | exact Hi]. }
  assert (Hasc : StronglySorted (fun a b => F32.ltb (d a) (d b) = true) os).
  { clear Hdrawn HA HB Hkeys. induction Hos as [| e o M' os' Heo Hrest IH].
    - constructor.
    - apply StronglySorted_inv in Hord. destruct Hord as [Hord Hall].
      constructor; [now apply IH |].
      apply Forall_forall. intros b Hb.
      destruct (Forall2_in_r _ _ _ _ Hrest Hb) as (e' & He' & _ & _ & Hk').
      destruct Heo as (_ & _ & Hk).
      rewrite Forall_forall in Hall. specialize (Hall e' He').
      unfold entry_lt in Hall.
      now rewrite <- (F32Order.ltb_eqb_l _ _ _ Hk),
                  <- (F32Order.ltb_eqb_r _ _ _ Hk'). }
  exists (rev os). split; [now apply render_draws |].
  split; [| split; [| now apply Forall2_rev_both]].
  - rewrite <- Permutation_rev. apply NoDup_Permutation.
    + apply (sorted_NoDup _ _ (fun a H => eq_true_false_abs _ H
                                 (F32Order.ltb_irrefl (d a))) Hasc).
    + apply winners_NoDup.
      apply NoDup_map_inv with (f := LveGameObject.getId).
      now apply lights_NoDup.
    + intros x. split.
      * intros Hx. destruct (Forall2_in_r _ _ _ _ Hos Hx) as (e & _ & Hw & _).
        exact Hw.
      * intros Hx. destruct (HB x Hx) as (k & Hin & _).
        destruct (Forall2_in_l _ _ _ _ Hos Hin) as (b & Hb & Hw & Hi & _).
        cbn in Hi.
        assert (b = x) as <-; [| exact Hb].
        eapply NoDup_map_injective;
          [exact (lights_NoDup _ Hwf) | | | exact Hi];
          eapply winners_incl; eassumption.
  - apply (sorted_rev _ _ Hasc).
Qed.

(** With no NaN among the distances, the pass draws the last light of each
    distance, the farthest first. *)
Lemma render_resolved frameInfo :
  well_formed (FrameInfo.gameObjects frameInfo) ->
  Forall (fun o => F32.is_nan (disSquared frameInfo o) = false)
         (lights (FrameInfo.gameObjects frameInfo)) ->
  exists order,
    render frameInfo =
    inr (FrameInfo.set_commandBuffer frameInfo
           (FrameInfo.commandBuffer frameInfo
              ++ [PipelineBind;
                CmdBindDescriptorSets 0
                  [FrameInfo.globalDescriptorSet frameInfo]]
              ++ flat_map draw_of order)) /\
    Permutation order
      (winners (disSquared frameInfo) (lights (FrameInfo.gameObjects frameInfo))) /\
    StronglySorted (farther_first frameInfo) order.
Proof.
  intros Hwf Hnan.
  destruct (render_resolved_entries frameInfo Hwf Hnan)
    as (order & Hr & Hperm & Hs & _).
  exists order. auto.
Qed.

(** ** The update pass *)

Lemma modify_nth_middle {A} (f : A -> A) (pre : list A) x rest :
  modify_nth (length pre) f (pre ++ x :: rest) = pre ++ f x :: rest.
Proof. induction pre as [| y pre IH]; cbn; [reflexivity | now rewrite IH]. Qed.

Lemma modify_at_middle {A} (f : A -> A) (pre : list A) x rest :
  modify_at (Z.of_nat (length pre)) f (pre ++ x :: rest) = pre ++ f x :: rest.
Proof.
  unfold modify_at. destruct (Z.ltb_spec (Z.of_nat (length pre)) 0); [lia |].
  rewrite Nat2Z.id. apply modify_nth_middle.
Qed.

Lemma set_pointLights_same ubo :
  GlobalUbo.set_pointLights ubo (GlobalUbo.pointLights ubo) = ubo.
Proof. now destruct ubo. Qed.

Lemma set_pointLights_twice ubo a b :
  GlobalUbo.set_pointLights (GlobalUbo.set_pointLights ubo a) b =
  GlobalUbo.set_pointLights ubo b.
Proof. reflexivity. Qed.

Lemma lights_cons_light k obj m :
  is_light obj = true -> lights ((k, obj) :: m) = obj :: lights m.
Proof. intros H. unfold lights. cbn. now rewrite H. Qed.

Lemma lights_cons_other k obj m :
  is_light obj = false -> lights ((k, obj) :: m) = lights m.
Proof. intros H. unfold lights. cbn. now rewrite H. Qed.

(** One light: the object is rotated and slot [lightIndex] receives it. *)
Lemma update_light_slot rotateLight obj light ubo pre x rest :
  LveGameObject.pointLight obj = Some light ->
  GlobalUbo.pointLights ubo = pre ++ x :: rest ->
  update_light rotateLight obj light ubo (Z.of_nat (length pre)) =
  (rotated rotateLight obj,
   GlobalUbo.set_pointLights ubo
     (pre ++ ubo_record (rotated rotateLight obj) :: rest)).
Proof.
  intros Hl Hubo. unfold update_light. cbn. rewrite Hubo.
  rewrite !modify_at_middle. cbn.
  unfold ubo_record, rotated, lightIntensity_of. cbn. now rewrite Hl.
Qed.

(** The loop, started at slot [length pre] with room for all its lights. *)
Lemma update_loop_room rotateLight entries :
  forall ubo pre rest,
    GlobalUbo.pointLights ubo = pre ++ rest ->
    (length (lights entries) <= length rest)%nat ->
    Z.of_nat (length pre + length (lights entries)) <= MAX_LIGHTS ->
    update_loop rotateLight entries ubo (Z.of_nat (length pre)) =
    inr (map (advance rotateLight) entries,
         GlobalUbo.set_pointLights ubo
           (pre ++ map ubo_record (map (rotated rotateLight) (lights entries))
                ++ skipn (length (lights entries)) rest),
         Z.of_nat (length pre + length (lights entries))).
Proof.
  induction entries as [| [k obj] entries IH]; intros ubo pre rest Hubo Hlen Hmax.
  - cbn. rewrite Nat.add_0_r, <- Hubo, set_pointLights_same. reflexivity.
  - cbn [update_loop]. unfold advance at 1. cbn [map fst snd].
    destruct (LveGameObject.pointLight obj) as [light |] eqn:Hl.
    + assert (Hlight : is_light obj = true) by (unfold is_light; now rewrite Hl).
      rewrite Hlight. rewrite (lights_cons_light _ _ _ Hlight) in *.
      cbn [length] in *. destruct rest as [| x rest]; [cbn in Hlen; lia |].
      replace (Z.of_nat (length pre) <? MAX_LIGHTS) with true
        by (symmetry; apply Z.ltb_lt; lia).
      cbn [assert bind ret].
      rewrite (update_light_slot _ _ _ _ pre x rest Hl Hubo).
      replace (Z.of_nat (length pre) + 1) with (Z.of_nat (length (pre ++ [ubo_record (rotated rotateLight obj)])))
        by (rewrite length_app; cbn; lia).
      rewrite (IH _ (pre ++ [ubo_record (rotated rotateLight obj)]) rest).
      * cbn. rewrite length_app. cbn [length].
        rewrite <- !app_assoc. cbn. unfold ret.
        replace (length pre + 1 + length (lights entries))%nat
          with (length pre + S (length (lights entries)))%nat by lia.
        reflexivity.
      * cbn. now rewrite <- app_assoc.
      * cbn in Hlen. lia.
      * rewrite length_app. cbn. lia.
    + assert (Hlight : is_light obj = false) by (unfold is_light; now rewrite Hl).
      rewrite Hlight. rewrite (lights_cons_other _ _ _ Hlight) in *.
      rewrite (IH ubo pre rest Hubo Hlen Hmax). reflexivity.
Qed.

(** The loop, started with more lights ahead than free slots. *)
Lemma update_loop_overflow rotateLight entries :
  forall ubo lightIndex,
    lightIndex <= MAX_LIGHTS ->
    lightIndex + Z.of_nat (length (lights entries)) > MAX_LIGHTS ->
    update_loop rotateLight entries ubo lightIndex = inl assertion_failed.
Proof.
  induction entries as [| [k obj] entries IH]; intros ubo n Hn Hover.
  - cbn in Hover. lia.
  - cbn [update_loop].
    destruct (LveGameObject.pointLight obj) as [light |] eqn:Hl.
    + assert (Hlight : is_light obj = true) by (unfold is_light; now rewrite Hl).
      rewrite (lights_cons_light _ _ _ Hlight) in Hover. cbn [length] in Hover.
      destruct (Z.ltb_spec n MAX_LIGHTS) as [Hlt | Hge]; [| reflexivity].
      cbn [assert bind ret].
      destruct (update_light rotateLight obj light ubo n) as [obj' ubo'].
      rewrite IH by lia. reflexivity.
    + assert (Hlight : is_light obj = false) by (unfold is_light; now rewrite Hl).
      rewrite (lights_cons_other _ _ _ Hlight) in Hover.
      rewrite IH by lia. reflexivity.
Qed.

Lemma update_within glm_rotate frameInfo ubo :
  length (GlobalUbo.pointLights ubo) = Z.to_nat MAX_LIGHTS ->
  Z.of_nat (length (lights (FrameInfo.gameObjects frameInfo))) <= MAX_LIGHTS ->
  let rotateLight := rotateLight_of glm_rotate frameInfo in
  let moved := map (rotated rotateLight) (lights (FrameInfo.gameObjects frameInfo)) in
  update glm_rotate frameInfo ubo =
  inr (FrameInfo.set_gameObjects frameInfo
         (map (advance rotateLight) (FrameInfo.gameObjects frameInfo)),
       GlobalUbo.set_numLights
         (GlobalUbo.set_pointLights ubo
            (map ubo_record moved
               ++ skipn (length moved) (GlobalUbo.pointLights ubo)))
         (Z.of_nat (length moved))).
Proof.
  intros Hlen Hmax rotateLight moved. unfold update.
  fold (rotateLight_of glm_rotate frameInfo). fold rotateLight.
  change 0 with (Z.of_nat (length (@nil PointLight.t))).
  rewrite (update_loop_room rotateLight _ ubo [] (GlobalUbo.pointLights ubo));
    [| reflexivity | rewrite Hlen; lia | cbn [length Nat.add]; exact Hmax].
  cbn. unfold moved. now rewrite !length_map.
Qed.

Lemma update_beyond glm_rotate frameInfo ubo :
  Z.of_nat (length (lights (FrameInfo.gameObjects frameInfo))) > MAX_LIGHTS ->
  update glm_rotate frameInfo ubo = inl assertion_failed.
Proof.
  intros Hover. unfold update.
  rewrite update_loop_overflow; [reflexivity | unfold MAX_LIGHTS; lia | lia].
Qed.

(** ** The fuelled generator agrees with the generator *)

Lemma sierpinski_fuel_sound fuel :
  forall vertices depth left_ right_ top out,
    sierpinski_fuel fuel vertices depth left_ right_ top = Some out ->
    out = sierpinski vertices depth left_ right_ top.
Proof.
  induction fuel as [| fuel IH]; intros vertices depth l r t out; cbn;
    [discriminate |].
  destruct (Z.leb_spec depth 0) as [Hle | Hgt].
  - intros [= <-]. rewrite sierpinski_base by assumption.
    unfold push_back. now rewrite <- !app_assoc.
  - rewrite sierpinski_step by lia.
    destruct (sierpinski_fuel fuel vertices _ _ _ _) as [v1 |] eqn:E1;
      [| discriminate].
    destruct (sierpinski_fuel fuel v1 _ _ _ _) as [v2 |] eqn:E2;
      [| discriminate].
    intros E3. apply IH in E1, E2, E3. now subst.
Qed.

Lemma sierpinski_fuel_leaf fuel vertices depth left_ right_ top :
  depth <= 0 ->
  sierpinski_fuel (S fuel) vertices depth left_ right_ top =
  Some (vertices ++
        [mk_Vertex top red; mk_Vertex right_ green; mk_Vertex left_ blue]).
Proof.
  intros Hd. cbn [sierpinski_fuel].
  destruct (Z.leb_spec depth 0); [| lia].
  unfold push_back. now rewrite <- !app_assoc.
Qed.

Lemma sierpinski_fuel_node fuel vertices depth left_ right_ top :
  depth > 0 ->
  sierpinski_fuel (S fuel) vertices depth left_ right_ top =
  match sierpinski_fuel fuel vertices (depth - 1) left_
          (midpoint left_ right_) (midpoint left_ top) with
  | None => None
  | Some vertices =>
      match sierpinski_fuel fuel vertices (depth - 1)
              (midpoint left_ right_) right_ (midpoint right_ top) with
      | None => None
      | Some vertices =>
          sierpinski_fuel fuel vertices (depth - 1)
            (midpoint left_ top) (midpoint right_ top) top
      end
  end.
Proof.
  intros Hd. cbn [sierpinski_fuel].
  destruct (Z.leb_spec depth 0); [lia | reflexivity].
Qed.

(** One unit of fuel per level of the recursion, and one for the leaf. *)
Lemma sierpinski_fuel_enough fuel :
  forall vertices depth left_ right_ top,
    depth <= Z.of_nat fuel ->
    sierpinski_fuel (S fuel) vertices depth left_ right_ top =
    Some (sierpinski vertices depth left_ right_ top).
Proof.
  induction fuel as [| fuel IH]; intros vertices depth l r t Hfuel;
    destruct (Z_le_gt_dec depth 0) as [Hle | Hgt]; try (cbn in Hfuel; lia).
  - now rewrite sierpinski_fuel_leaf, sierpinski_base.
  - now rewrite sierpinski_fuel_leaf, sierpinski_base.
  - rewrite sierpinski_fuel_node, (sierpinski_step _ depth) by lia.
    rewrite !IH by lia. reflexivity.
Qed.

(** * The generator: size, base case, recursion, frame *)

(** C1: for every depth [>= 0] and every three corners the generator appends
    exactly [3 * 3^depth] vertices to the vector it is given; run on an empty
    vector it returns [3 * 3^depth] vertices. *)
Theorem sierpinski_emits_3_pow_depth vertices depth left_ right_ top :
  0 <= depth ->
  Z.of_nat (length (sierpinski vertices depth left_ right_ top)) =
    Z.of_nat (length vertices) + 3 * 3 ^ depth /\
  Z.of_nat (length (generate depth left_ right_ top)) = 3 * 3 ^ depth.
Proof.
  intros Hd. rewrite sierpinski_appends, length_app, Nat2Z.inj_add.
  now rewrite generate_length.
Qed.

Lemma sierpinski_emits_3_pow_depth_witness :
  0 <= 2 /\
  Z.of_nat (length (sierpinski [] 2 p_left p_right p_top)) = 0 + 3 * 3 ^ 2 /\
  Z.of_nat (length (generate 2 p_left p_right p_top)) = 3 * 3 ^ 2.
Proof.
  split; [lia |].
  apply (sierpinski_emits_3_pow_depth [] 2 p_left p_right p_top). lia.
Defined.

(** C4: at depth 0 the generator returns the three corners in the order
    top, right, left, colored red, green, blue. *)
Theorem generate_depth_0 left_ right_ top :
  generate 0 left_ right_ top =
  [mk_Vertex top (glm.mk_vec3 F32.one F32.zero F32.zero);
   mk_Vertex right_ (glm.mk_vec3 F32.zero F32.one F32.zero);
   mk_Vertex left_ (glm.mk_vec3 F32.zero F32.zero F32.one)].
Proof. unfold generate. now rewrite sierpinski_base. Qed.

(** C5: for [depth > 0] the output is the concatenation of the outputs at
    [depth - 1] for the sub-triangles (left, leftRight, leftTop),
    (leftRight, right, rightTop), (leftTop, rightTop, top), in this order,
    each midpoint being [0.5f * (a + b)]. *)
Theorem generate_recursive depth left_ right_ top :
  depth > 0 ->
  let mid a b := glm.scale2 F32.half (glm.add2 a b) in
  let leftTop := mid left_ top in
  let rightTop := mid right_ top in
  let leftRight := mid left_ right_ in
  generate depth left_ right_ top =
  generate (depth - 1) left_ leftRight leftTop ++
  generate (depth - 1) leftRight right_ rightTop ++
  generate (depth - 1) leftTop rightTop top.
Proof. intros Hd. cbn zeta. now apply generate_step. Qed.

Lemma generate_recursive_witness :
  1 > 0 /\
  generate 1 p_left p_right p_top =
  generate 0 p_left (midpoint p_left p_right) (midpoint p_left p_top) ++
  generate 0 (midpoint p_left p_right) p_right (midpoint p_right p_top) ++
  generate 0 (midpoint p_left p_top) (midpoint p_right p_top) p_top.
Proof.
  split; [lia |].
  apply (generate_recursive 1 p_left p_right p_top). lia.
Defined.

(** C10: the generator only appends.  The vector on return is the vector
    on entry followed by the vertices the call emits, so each former element
    keeps its index. *)
Theorem sierpinski_only_appends vertices depth left_ right_ top :
  let out := sierpinski vertices depth left_ right_ top in
  out = vertices ++ generate depth left_ right_ top /\
  firstn (length vertices) out = vertices /\
  skipn (length vertices) out = generate depth left_ right_ top.
Proof.
  cbn zeta. rewrite sierpinski_appends.
  rewrite firstn_app, skipn_app, Nat.sub_diag, firstn_all, skipn_all.
  cbn. now rewrite app_nil_r.
Qed.

(** C8, as stated, fails: at depth -1 the call returns with one unit of
    fuel, that is without a nested call. *)
Lemma negative_depth_returns :
  ~ (forall fuel,
       sierpinski_fuel fuel [] (-1) p_left p_right p_top = None).
Proof. intros H. specialize (H 1%nat). discriminate H. Qed.

(** C8, amended: the guard is [depth <= 0], so a negative depth takes the
    base branch at once.  The call makes no nested call (one unit of fuel
    is enough) and appends the three corners, as at depth 0. *)
Theorem sierpinski_negative_depth vertices depth left_ right_ top :
  depth < 0 ->
  let leaf :=
    [mk_Vertex top red; mk_Vertex right_ green; mk_Vertex left_ blue] in
  sierpinski_fuel 1 vertices depth left_ right_ top = Some (vertices ++ leaf) /\
  sierpinski vertices depth left_ right_ top = vertices ++ leaf.
Proof.
  intros Hd. cbn zeta. split.
  - apply sierpinski_fuel_leaf. lia.
  - apply sierpinski_base. lia.
Qed.

Lemma sierpinski_negative_depth_witness :
  -5 < 0 /\
  sierpinski_fuel 1 [] (-5) p_left p_right p_top =
    Some ([] ++ [mk_Vertex p_top red; mk_Vertex p_right green;
                 mk_Vertex p_left blue]) /\
  sierpinski [] (-5) p_left p_right p_top =
    [] ++ [mk_Vertex p_top red; mk_Vertex p_right green; mk_Vertex p_left blue].
Proof.
  split; [lia |].
  apply (sierpinski_negative_depth [] (-5) p_left p_right p_top). lia.
Defined.

(** * The render pass: draw order, collisions, shader records *)

Lemma pushed_app a b : pushed (a ++ b) = pushed a ++ pushed b.
Proof. unfold pushed. apply flat_map_app. Qed.

Lemma pushed_draws order :
  pushed (flat_map draw_of order) = map shader_record order.
Proof. induction order as [| o order IH]; cbn; [| rewrite <- IH]; reflexivity. Qed.

Lemma pushed_render commandBuffer sets order :
  pushed (commandBuffer ++ [PipelineBind; CmdBindDescriptorSets 0 sets]
            ++ flat_map draw_of order) =
  pushed commandBuffer ++ map shader_record order.
Proof. now rewrite !pushed_app, pushed_draws. Qed.

(** C2: when the squared distances of the lights are numbers and pairwise
    distinct, the pass emits one record per light, in strictly decreasing
    squared distance.  Lights at squared distances 1, 9, 4 (in iteration
    order) are drawn as 9, 4, 1. *)
Theorem render_farthest_first :
  (forall frameInfo,
     let scene := lights (FrameInfo.gameObjects frameInfo) in
     well_formed (FrameInfo.gameObjects frameInfo) ->
     Forall (fun o => F32.is_nan (disSquared frameInfo o) = false) scene ->
     ForallOrdPairs
       (fun a b =>
          F32.eqb (disSquared frameInfo a) (disSquared frameInfo b) = false)
       scene ->
     exists order frameInfo',
       render frameInfo = inr frameInfo' /\
       FrameInfo.commandBuffer frameInfo' =
         FrameInfo.commandBuffer frameInfo
           ++ [PipelineBind;
                CmdBindDescriptorSets 0
                  [FrameInfo.globalDescriptorSet frameInfo]]
           ++ flat_map draw_of order /\
       pushed (FrameInfo.commandBuffer frameInfo') =
         pushed (FrameInfo.commandBuffer frameInfo) ++ map shader_record order /\
       Permutation order scene /\
       StronglySorted
         (fun a b =>
            F32.ltb (disSquared frameInfo b) (disSquared frameInfo a) = true)
         order) /\
  (map (disSquared (frame_of three_lights)) (lights three_lights) =
     [F32.lit 1 0; F32.lit 9 0; F32.lit 4 0] /\
   exists frameInfo',
     render (frame_of three_lights) = inr frameInfo' /\
     pushed (FrameInfo.commandBuffer frameInfo') =
       map shader_record [light_at 1 3; light_at 2 2; light_at 0 1]).
Proof.
  split.
  - intros frameInfo scene Hwf Hnan Hdistinct. subst scene.
    destruct (render_resolved frameInfo Hwf Hnan) as (order & Hr & Hperm & Hs).
    rewrite (winners_all _ _ Hdistinct) in Hperm.
    exists order. eexists. split; [exact Hr |]. cbn.
    repeat split; [apply pushed_render | exact Hperm | exact Hs].
  - split; [vm_compute; reflexivity |].
    eexists. split; vm_compute; reflexivity.
Qed.

Lemma render_farthest_first_witness :
  exists order frameInfo',
    render (frame_of three_lights) = inr frameInfo' /\
    pushed (FrameInfo.commandBuffer frameInfo') = map shader_record order /\
    Permutation order (lights three_lights).
Proof.
  destruct (proj1 render_farthest_first (frame_of three_lights))
    as (order & frameInfo' & Hr & _ & Hp & Hperm & _).
  - split.
    + repeat constructor; cbn; intuition discriminate.
    + repeat constructor.
  - repeat constructor.
  - repeat constructor.
  - exists order, frameInfo'. auto.
Defined.

Lemma existsb_false_Forall {A} (f : A -> bool) l :
  existsb f l = false <-> Forall (fun a => f a = false) l.
Proof.
  induction l as [| a l IH]; cbn.
  - split; [constructor | reflexivity].
  - rewrite orb_false_iff, IH. split.
    + intros [Ha Hl]. now constructor.
    + intros H. inversion H; subst. auto.
Qed.

(** A winner is an element with no equal distance after it. *)
Lemma winners_last {A} (d : A -> float) (os : list A) (o : A) :
  In o (winners d os) <->
  exists before after,
    os = before ++ o :: after /\
    Forall (fun o' => F32.eqb (d o') (d o) = false) after.
Proof.
  induction os as [| a os IH]; cbn.
  - split; [tauto |]. intros (before & after & H & _).
    now destruct before.
  - split.
    + intros H.
      destruct (existsb (fun o' => F32.eqb (d o') (d a)) os) eqn:E.
      * apply IH in H. destruct H as (before & after & -> & Hall).
        exists (a :: before), after. auto.
      * destruct H as [<- | H].
        -- exists [], os. split; [reflexivity |].
           now apply existsb_false_Forall in E.
        -- apply IH in H. destruct H as (before & after & -> & Hall).
           exists (a :: before), after. auto.
    + intros (before & after & Hsplit & Hall).
      destruct before as [| b before]; cbn in Hsplit.
      * injection Hsplit as <- <-.
        apply (existsb_false_Forall (fun o' => F32.eqb (d o') (d a))) in Hall.
        rewrite Hall. now left.
      * injection Hsplit as <- ->.
        assert (Hin : In o (winners d (before ++ o :: after))).
        { apply IH. now exists before, after. }
        destruct (existsb _ (before ++ o :: after)); cbn; auto.
Qed.

(** C3: a light whose squared distance equals that of a later light is
    dropped.  With distances that are numbers, the lights drawn are those
    with no later light at an equal distance, and their number is the number
    of distinct distances; of two lights at one distance only the second is
    drawn. *)
Theorem render_drops_colliding_lights frameInfo :
  let scene := lights (FrameInfo.gameObjects frameInfo) in
  well_formed (FrameInfo.gameObjects frameInfo) ->
  Forall (fun o => F32.is_nan (disSquared frameInfo o) = false) scene ->
  exists order frameInfo',
    render frameInfo = inr frameInfo' /\
    pushed (FrameInfo.commandBuffer frameInfo') =
      pushed (FrameInfo.commandBuffer frameInfo) ++ map shader_record order /\
    length order = length (distinct (map (disSquared frameInfo) scene)) /\
    (forall o,
       In o order <->
       exists before after,
         scene = before ++ o :: after /\
         Forall
           (fun o' =>
              F32.eqb (disSquared frameInfo o') (disSquared frameInfo o) = false)
           after) /\
    (forall a b,
       scene = [a; b] ->
       F32.eqb (disSquared frameInfo a) (disSquared frameInfo b) = true ->
       order = [b]).
Proof.
  intros scene Hwf Hnan. subst scene.
  destruct (render_resolved frameInfo Hwf Hnan) as (order & Hr & Hperm & Hs).
  exists order. eexists. split; [exact Hr |]. cbn.
  split; [apply pushed_render |]. split; [| split].
  - rewrite (Permutation_length Hperm). apply winners_length_keys.
  - intros o. rewrite <- winners_last. split; intros H.
    + eapply Permutation_in; [exact Hperm | exact H].
    + eapply Permutation_in; [symmetry; exact Hperm | exact H].
  - intros a b Hscene Heq. rewrite Hscene in Hperm. cbn in Hperm.
    rewrite F32Order.eqb_sym in Heq. rewrite Heq in Hperm. cbn in Hperm.
    apply Permutation_sym, Permutation_length_1_inv in Hperm. exact Hperm.
Qed.

Lemma render_drops_colliding_lights_witness :
  exists order frameInfo',
    render (frame_of two_lights_tied) = inr frameInfo' /\
    pushed (FrameInfo.commandBuffer frameInfo') = map shader_record order /\
    order = [light_at 1 (-2)].
Proof.
  destruct (render_drops_colliding_lights (frame_of two_lights_tied))
    as (order & frameInfo' & Hr & Hp & _ & _ & Htwo).
  - split.
    + repeat constructor; cbn; intuition discriminate.
    + repeat constructor.
  - repeat constructor.
  - exists order, frameInfo'. repeat split; [exact Hr | exact Hp |].
    apply (Htwo (light_at 0 2) (light_at 1 (-2))); reflexivity.
Defined.

(** C9: each record the pass pushes is built from the light that the map
    entry names: the translation with [w = 1], the color with [w] the light
    intensity, and the x component of the scale as radius. *)
Theorem render_shader_records frameInfo :
  well_formed (FrameInfo.gameObjects frameInfo) ->
  exists order records frameInfo',
    render frameInfo = inr frameInfo' /\
    pushed (FrameInfo.commandBuffer frameInfo') =
      pushed (FrameInfo.commandBuffer frameInfo) ++ records /\
    Forall2
      (fun it obj =>
         In obj (lights (FrameInfo.gameObjects frameInfo)) /\
         LveGameObject.getId obj = snd it)
      (std_map.reversed (render_sort frameInfo)) order /\
    Forall2
      (fun obj push =>
         let transform := LveGameObject.transform obj in
         let translation := TransformComponent.translation transform in
         let color := LveGameObject.color obj in
         exists light,
           LveGameObject.pointLight obj = Some light /\
           UnitPushConstants.position push =
             glm.mk_vec4 (glm.x3 translation) (glm.y3 translation)
                         (glm.z3 translation) F32.one /\
           UnitPushConstants.color push =
             glm.mk_vec4 (glm.x3 color) (glm.y3 color) (glm.z3 color)
                         (PointLightComponent.lightIntensity light) /\
           UnitPushConstants.radius push =
             glm.x3 (TransformComponent.scale transform))
      order records.
Proof.
  intros Hwf. destruct (render_total frameInfo Hwf) as (order & Hdrawn & Hr).
  exists order, (map shader_record order). eexists.
  split; [exact Hr |]. cbn. split; [apply pushed_render |].
  split; [exact Hdrawn |].
  assert (Hlights : Forall (fun o => is_light o = true) order).
  { apply Forall_forall. intros o Ho.
    destruct (Forall2_in_r _ _ _ _ Hdrawn Ho) as (it & _ & Hin & _).
    now apply filter_In in Hin. }
  clear Hdrawn Hr. induction Hlights as [| o order Ho _ IH]; cbn;
    constructor; [| exact IH].
  unfold is_light in Ho. unfold shader_record, lightIntensity_of.
  destruct (LveGameObject.pointLight o) as [light |]; [| discriminate].
  exists light. repeat split.
Qed.

Lemma render_shader_records_witness :
  exists frameInfo',
    render (frame_of three_lights) = inr frameInfo' /\
    length (pushed (FrameInfo.commandBuffer frameInfo')) = 3%nat.
Proof.
  destruct (render_shader_records (frame_of three_lights))
    as (order & records & frameInfo' & Hr & Hp & Hdrawn & Hrec).
  - split.
    + repeat constructor; cbn; intuition discriminate.
    + repeat constructor.
  - exists frameInfo'. split; [exact Hr |].
    rewrite Hp. cbn. rewrite <- (Forall2_length Hrec), <- (Forall2_length Hdrawn).
    reflexivity.
Defined.

(** * The update pass: the capped light array *)

(** C6: the cap is 100.  With at most 100 lights the assertion never fails:
    the pass completes, light number [j] (counted from 0, moved by the
    rotation) is written at index [j < 100], the slots from [numLights] on
    are untouched and [numLights] is the number of lights.  With more than
    100 lights the assertion fails, and the failure is the outcome of the
    pass.  So the pass never returns with more than 100 lights written. *)
Theorem update_writes_at_most_MAX_LIGHTS glm_rotate frameInfo ubo :
  length (GlobalUbo.pointLights ubo) = Z.to_nat MAX_LIGHTS ->
  let scene := lights (FrameInfo.gameObjects frameInfo) in
  let moved := map (rotated (rotateLight_of glm_rotate frameInfo)) scene in
  MAX_LIGHTS = 100 /\
  (Z.of_nat (length scene) <= MAX_LIGHTS ->
   exists frameInfo' ubo',
     update glm_rotate frameInfo ubo = inr (frameInfo', ubo') /\
     GlobalUbo.numLights ubo' = Z.of_nat (length scene) /\
     length (GlobalUbo.pointLights ubo') = Z.to_nat MAX_LIGHTS /\
     (forall j obj,
        nth_error moved j = Some obj ->
        Z.of_nat j < MAX_LIGHTS /\
        nth_error (GlobalUbo.pointLights ubo') j = Some (ubo_record obj)) /\
     (forall j,
        (length scene <= j)%nat ->
        nth_error (GlobalUbo.pointLights ubo') j =
        nth_error (GlobalUbo.pointLights ubo) j)) /\
  (Z.of_nat (length scene) > MAX_LIGHTS ->
   update glm_rotate frameInfo ubo = inl assertion_failed) /\
  (forall frameInfo' ubo',
     update glm_rotate frameInfo ubo = inr (frameInfo', ubo') ->
     0 <= GlobalUbo.numLights ubo' <= MAX_LIGHTS).
Proof.
  intros Hlen scene moved.
  assert (Hmoved : length moved = length scene)
    by (unfold moved; apply length_map).
  assert (Hcap : Z.to_nat MAX_LIGHTS = 100%nat) by reflexivity.
  split; [reflexivity |]. split; [| split].
  - intros Hmax.
    pose proof (update_within glm_rotate frameInfo ubo Hlen Hmax) as Hu.
    cbn zeta in Hu. fold scene in Hu. fold moved in Hu.
    eexists. eexists. split; [exact Hu |]. cbn.
    split; [now rewrite Hmoved |]. split; [| split].
    + rewrite length_app, length_map, length_skipn, Hlen.
      unfold MAX_LIGHTS in *. lia.
    + intros j obj Hj.
      assert (Hjlt : (j < length moved)%nat)
        by (apply nth_error_Some; congruence).
      split; [unfold MAX_LIGHTS in *; lia |].
      rewrite nth_error_app1 by now rewrite length_map.
      now rewrite nth_error_map, Hj.
    + intros j Hj.
      rewrite nth_error_app2 by (rewrite length_map; lia).
      rewrite nth_error_skipn, length_map. f_equal. lia.
  - intros Hover. now apply update_beyond.
  - intros frameInfo' ubo' Hu.
    destruct (Z_le_gt_dec (Z.of_nat (length scene)) MAX_LIGHTS) as [Hle | Hgt].
    + rewrite (update_within glm_rotate frameInfo ubo Hlen Hle) in Hu.
      injection Hu as _ <-. cbn. fold scene. rewrite length_map.
      unfold MAX_LIGHTS in *. lia.
    + rewrite (update_beyond glm_rotate frameInfo ubo Hgt) in Hu. discriminate.
Qed.

Lemma update_writes_at_most_MAX_LIGHTS_witness :
  exists frameInfo' ubo',
    update rotate_none (frame_of three_lights) ubo_initial =
      inr (frameInfo', ubo') /\
    GlobalUbo.numLights ubo' = 3.
Proof.
  destruct (update_writes_at_most_MAX_LIGHTS rotate_none
              (frame_of three_lights) ubo_initial)
    as (_ & Hroom & _); [reflexivity |].
  destruct Hroom as (frameInfo' & ubo' & Hu & Hn & _);
    [vm_compute; discriminate |].
  exists frameInfo', ubo'. split; [exact Hu | exact Hn].
Defined.

(** * Two passes, not one *)

Lemma is_light_rotated rotateLight obj :
  is_light (rotated rotateLight obj) = is_light obj.
Proof. reflexivity. Qed.

(** The lights of the scene after the update are the lights before, moved. *)
Lemma lights_advance rotateLight gameObjects :
  lights (map (advance rotateLight) gameObjects) =
  map (rotated rotateLight) (lights gameObjects).
Proof.
  unfold lights. induction gameObjects as [| [k o] m IH]; cbn; [reflexivity |].
  rewrite IH. unfold advance. cbn. destruct (is_light o) eqn:Ho; cbn.
  - now rewrite is_light_rotated, Ho.
  - now rewrite Ho.
Qed.

(** C7, as stated, fails: on a scene of three lights the update pass leaves
    the command buffer without a record, while the render pass pushes
    three. *)
Lemma one_pass_does_all_fails : ~ one_pass_does_all.
Proof.
  intros H.
  destruct (update rotate_none (frame_of three_lights) ubo_initial)
    as [e | [frameInfo1 ubo1]] eqn:Hu; [vm_compute in Hu; discriminate |].
  destruct (render (frame_of three_lights)) as [e | frameInfo2] eqn:Hr;
    [vm_compute in Hr; discriminate |].
  destruct (H _ _ _ _ _ _ Hu Hr) as [Hp _].
  vm_compute in Hu, Hr. injection Hu as <- _. injection Hr as <-.
  vm_compute in Hp. discriminate.
Qed.

(** C7, amended: the work is split over two passes.  The update pass moves
    every light by the rotation of the frame (about the axis (-0.5, -1, 0),
    by half the frame time) and writes every light into the array capped at
    [MAX_LIGHTS]; it records no command.  The render pass walks the distance
    map in reverse and pushes, for each entry, the record of the light that
    the entry names; with distances that are not NaN this is the order
    farthest to nearest, strictly decreasing in squared distance, over the
    lights that no later light equals in distance.  The render pass moves no
    object, and the uniform block is not among its arguments. *)
Theorem update_moves_render_emits glm_rotate frameInfo ubo :
  well_formed (FrameInfo.gameObjects frameInfo) ->
  length (GlobalUbo.pointLights ubo) = Z.to_nat MAX_LIGHTS ->
  let scene := lights (FrameInfo.gameObjects frameInfo) in
  Z.of_nat (length scene) <= MAX_LIGHTS ->
  let rotateLight :=
    glm_rotate (glm.mat4_diag F32.one)
      (F32.half * FrameInfo.frameTime frameInfo)%f32
      (glm.mk_vec3 F32.neg_half F32.neg_one F32.zero) in
  let moved := map (rotated rotateLight) scene in
  (exists frameInfo1 ubo1,
     update glm_rotate frameInfo ubo = inr (frameInfo1, ubo1) /\
     FrameInfo.gameObjects frameInfo1 =
       map (advance rotateLight) (FrameInfo.gameObjects frameInfo) /\
     lights (FrameInfo.gameObjects frameInfo1) = moved /\
     firstn (length scene) (GlobalUbo.pointLights ubo1) = map ubo_record moved /\
     GlobalUbo.numLights ubo1 = Z.of_nat (length scene) /\
     FrameInfo.commandBuffer frameInfo1 = FrameInfo.commandBuffer frameInfo) /\
  (exists frameInfo2 order,
     render frameInfo = inr frameInfo2 /\
     pushed (FrameInfo.commandBuffer frameInfo2) =
       pushed (FrameInfo.commandBuffer frameInfo) ++ map shader_record order /\
     length order = length (render_sort frameInfo) /\
     FrameInfo.gameObjects frameInfo2 = FrameInfo.gameObjects frameInfo /\
     FrameInfo.commandBuffer frameInfo2 =
       FrameInfo.commandBuffer frameInfo
         ++ [PipelineBind;
             CmdBindDescriptorSets 0 [FrameInfo.globalDescriptorSet frameInfo]]
         ++ flat_map
              (fun obj => [CmdPushConstants (shader_record obj); CmdDraw 6 1 0 0])
              order /\
     Forall2
       (fun it obj => In obj scene /\ LveGameObject.getId obj = snd it)
       (std_map.reversed (render_sort frameInfo)) order /\
     (Forall (fun o => F32.is_nan (disSquared frameInfo o) = false) scene ->
      Permutation order (winners (disSquared frameInfo) scene) /\
      StronglySorted
        (fun a b =>
           F32.ltb (disSquared frameInfo b) (disSquared frameInfo a) = true)
        order)).
Proof.
  intros Hwf Hlen scene Hmax rotateLight moved. split.
  - pose proof (update_within glm_rotate frameInfo ubo Hlen Hmax) as Hu.
    cbn zeta in Hu. fold scene in Hu.
    change (rotateLight_of glm_rotate frameInfo) with rotateLight in Hu.
    fold moved in Hu.
    eexists. eexists. split; [exact Hu |]. cbn.
    assert (Hmoved : length moved = length scene)
      by (unfold moved; apply length_map).
    repeat split.
    + apply lights_advance.
    + rewrite <- Hmoved, <- (length_map ubo_record moved).
      rewrite firstn_app, Nat.sub_diag, firstn_all. cbn.
      now rewrite app_nil_r.
    + now rewrite Hmoved.
  - assert (Hcases :
      exists order,
        render frameInfo =
          inr (FrameInfo.set_commandBuffer frameInfo
                 (FrameInfo.commandBuffer frameInfo
                    ++ [PipelineBind;
                        CmdBindDescriptorSets 0
                          [FrameInfo.globalDescriptorSet frameInfo]]
                    ++ flat_map draw_of order)) /\
        Forall2 (drawn_as frameInfo)
                (std_map.reversed (render_sort frameInfo)) order /\
        (Forall (fun o => F32.is_nan (disSquared frameInfo o) = false) scene ->
         Permutation order (winners (disSquared frameInfo) scene) /\
         StronglySorted (farther_first frameInfo) order)).
    { destruct (Forall_dec
                  (fun o => F32.is_nan (disSquared frameInfo o) = false)
                  (fun o => bool_dec (F32.is_nan (disSquared frameInfo o)) false)
                  scene) as [Hnan | Hsome].
      - destruct (render_resolved_entries frameInfo Hwf Hnan)
          as (order & Hr & Hperm & Hs & Hdrawn).
        exists order. auto.
      - destruct (render_total frameInfo Hwf) as (order & Hdrawn & Hr).
        exists order. split; [exact Hr |]. split; [exact Hdrawn |].
        intros Hnan. contradiction. }
    destruct Hcases as (order & Hr & Hdrawn & Hfar).
    eexists. exists order. split; [exact Hr |]. cbn.
    split; [apply pushed_render |].
    split; [rewrite <- (Forall2_length Hdrawn); apply length_rev |].
    split; [reflexivity |]. split; [reflexivity |].
    split; [exact Hdrawn | exact Hfar].
Qed.

Lemma update_moves_render_emits_witness :
  (exists frameInfo1 ubo1,
     update rotate_none (frame_of three_lights) ubo_initial =
       inr (frameInfo1, ubo1) /\
     FrameInfo.commandBuffer frameInfo1 = []) /\
  (exists frameInfo2 order,
     render (frame_of three_lights) = inr frameInfo2 /\
     FrameInfo.gameObjects frameInfo2 = three_lights /\
     pushed (FrameInfo.commandBuffer frameInfo2) = map shader_record order /\
     Permutation order (lights three_lights) /\
     StronglySorted
       (fun a b =>
          F32.ltb (disSquared (frame_of three_lights) b)
                  (disSquared (frame_of three_lights) a) = true)
       order).
Proof.
  destruct (update_moves_render_emits rotate_none (frame_of three_lights)
              ubo_initial) as [Hupdate Hrender].
  - split.
    + repeat constructor; cbn; intuition discriminate.
    + repeat constructor.
  - reflexivity.
  - vm_compute. discriminate.
  - destruct Hupdate as (frameInfo1 & ubo1 & Hu & _ & _ & _ & _ & Hcb).
    destruct Hrender as (frameInfo2 & order & Hr & Hp & _ & Hgo & _ & _ & Hfar).
    destruct Hfar as [Hperm Hs]; [repeat constructor |].
    split.
    + exists frameInfo1, ubo1. split; [exact Hu | exact Hcb].
    + exists frameInfo2, order. repeat split; assumption.
Defined.


(** * Further properties of the generator *)

Lemma generate_at_least_3 depth left_ right_ top :
  (3 <= length (generate depth left_ right_ top))%nat.
Proof.
  revert left_ right_ top. pattern depth. apply depth_ind; clear depth.
  - intros depth Hd l r t. unfold generate. rewrite sierpinski_base by assumption.
    cbn. lia.
  - intros depth Hd IH l r t. rewrite generate_step by assumption.
    rewrite length_app. specialize (IH l (midpoint l r) (midpoint l t)). lia.
Qed.

(** X1: whatever the depth, the colors of the output run red, green, blue,
    once per leaf triangle, and there are [3 ^ max depth 0] leaf triangles:
    every three consecutive vertices are one triangle with a red first, a
    green second and a blue third vertex. *)
Theorem generate_colors depth left_ right_ top :
  map v_color (generate depth left_ right_ top) =
  concat (repeat [red; green; blue] (Z.to_nat (3 ^ Z.max depth 0))).
Proof.
  revert left_ right_ top. pattern depth. apply depth_ind; clear depth.
  - intros depth Hd l r t. unfold generate. rewrite sierpinski_base by assumption.
    replace (Z.max depth 0) with 0 by lia. reflexivity.
  - intros depth Hd IH l r t. rewrite generate_step by assumption.
    rewrite !map_app, !IH.
    replace (Z.max depth 0) with (Z.succ (Z.max (depth - 1) 0)) by lia.
    rewrite Z.pow_succ_r by lia.
    set (n := 3 ^ Z.max (depth - 1) 0).
    assert (Hn : 0 <= n) by (apply Z.pow_nonneg; lia).
    replace (Z.to_nat (3 * n))
      with (Z.to_nat n + (Z.to_nat n + Z.to_nat n))%nat by lia.
    now rewrite !repeat_app, !concat_app.
Qed.

(** X2: the three corners given to the generator are vertices of the
    output, bit for bit and with their colors, at every depth: the left
    corner is the third vertex, the top corner the third from the end, and
    the right corner is among the green vertices. *)
Theorem generate_keeps_corners depth left_ right_ top :
  let out := generate depth left_ right_ top in
  nth_error out 2 = Some (mk_Vertex left_ blue) /\
  nth_error (rev out) 2 = Some (mk_Vertex top red) /\
  In (mk_Vertex right_ green) out.
Proof.
  cbn zeta. revert left_ right_ top. pattern depth. apply depth_ind; clear depth.
  - intros depth Hd l r t. unfold generate. rewrite sierpinski_base by assumption.
    cbn. auto.
  - intros depth Hd IH l r t. rewrite generate_step by assumption.
    destruct (IH l (midpoint l r) (midpoint l t)) as (Hleft & _ & _).
    destruct (IH (midpoint l r) r (midpoint r t)) as (_ & _ & Hright).
    destruct (IH (midpoint l t) (midpoint r t) t) as (_ & Htop & _).
    repeat split.
    + rewrite nth_error_app1; [exact Hleft |].
      pose proof (generate_at_least_3 (depth - 1) l (midpoint l r) (midpoint l t)).
      lia.
    + rewrite !rev_app_distr, <- app_assoc.
      rewrite nth_error_app1; [exact Htop |].
      rewrite length_rev.
      pose proof (generate_at_least_3 (depth - 1) (midpoint l t) (midpoint r t) t).
      lia.
    + rewrite !in_app_iff. auto.
Qed.

(** X3: the calls nest exactly [max depth 0 + 1] deep.  A run bounded to
    [fuel] nested calls is cut short if and only if [fuel <= max depth 0];
    with more fuel it returns what the generator returns. *)
Theorem sierpinski_nesting fuel vertices depth left_ right_ top :
  (sierpinski_fuel fuel vertices depth left_ right_ top = None <->
   Z.of_nat fuel <= Z.max depth 0) /\
  (Z.max depth 0 < Z.of_nat fuel ->
   sierpinski_fuel fuel vertices depth left_ right_ top =
   Some (sierpinski vertices depth left_ right_ top)).
Proof.
  assert (Henough : Z.max depth 0 < Z.of_nat fuel ->
            sierpinski_fuel fuel vertices depth left_ right_ top =
            Some (sierpinski vertices depth left_ right_ top)).
  { intros H. destruct fuel as [| fuel]; [lia |].
    destruct (Z_le_gt_dec depth 0).
    - now rewrite sierpinski_fuel_leaf, sierpinski_base.
    - apply sierpinski_fuel_enough. lia. }
  split; [| exact Henough]. split.
  - intros Hnone. destruct (Z_le_gt_dec (Z.of_nat fuel) (Z.max depth 0));
      [assumption |].
    rewrite Henough in Hnone by lia. discriminate.
  - clear Henough. revert vertices depth left_ right_ top.
    induction fuel as [| fuel IH]; intros vertices depth l r t Hfuel;
      [reflexivity |].
    assert (Hd : depth > 0) by lia.
    rewrite sierpinski_fuel_node by assumption.
    rewrite IH by lia. reflexivity.
Qed.

(** * Further properties of the render pass *)

(** [at] fails only by [std::out_of_range], and only for a key that is not in
    the map; what it returns is stored under the key. *)
Lemma at_missing gameObjects key e :
  LveGameObject.at_ gameObjects key = inl e <->
  e = out_of_range /\ ~ In key (map fst gameObjects).
Proof.
  induction gameObjects as [| [k o] m IH]; cbn.
  - split; [intros [= <-]; tauto | intros [-> _]; reflexivity].
  - destruct (Z.eqb_spec k key) as [-> | Hne]; cbn.
    + split; [discriminate | intros [_ H]; exfalso; auto].
    + rewrite IH. split; intros [He Hin]; (split; [exact He | tauto]).
Qed.

Lemma at_stored gameObjects key obj :
  LveGameObject.at_ gameObjects key = inr obj -> In (key, obj) gameObjects.
Proof.
  induction gameObjects as [| [k o] m IH]; cbn; [discriminate |].
  destruct (Z.eqb_spec k key) as [-> | Hne]; cbn.
  - intros [= ->]. now left.
  - intros H. right. now apply IH.
Qed.

(** The commands of one draw call. *)
Lemma render_draw_from_empty frameInfo commandBuffer it :
  render_draw frameInfo commandBuffer it =
  match render_draw frameInfo [] it with
  | inl e => inl e
  | inr block => inr (commandBuffer ++ block)
  end.
Proof.
  unfold render_draw.
  destruct (LveGameObject.at_ _ (snd it)) as [e | obj]; cbn; [reflexivity |].
  now destruct (LveGameObject.pointLight obj).
Qed.

(** What the second loop appends does not depend on the buffer it finds. *)
Lemma render_loop_from_empty frameInfo its :
  forall commandBuffer,
    render_loop frameInfo commandBuffer its =
    match render_loop frameInfo [] its with
    | inl e => inl e
    | inr block => inr (commandBuffer ++ block)
    end.
Proof.
  induction its as [| it its IH]; intros commandBuffer; cbn.
  - now rewrite app_nil_r.
  - rewrite (render_draw_from_empty _ commandBuffer).
    destruct (render_draw frameInfo [] it) as [e | block]; cbn; [reflexivity |].
    rewrite (IH (commandBuffer ++ block)), (IH block).
    destruct (render_loop frameInfo [] its); [reflexivity |].
    now rewrite app_assoc.
Qed.

Lemma render_draw_outcome frameInfo it :
  match render_draw frameInfo [] it with
  | inr block =>
      exists obj light push,
        LveGameObject.at_ (FrameInfo.gameObjects frameInfo) (snd it) = inr obj /\
        LveGameObject.pointLight obj = Some light /\
        block = [CmdPushConstants push; CmdDraw 6 1 0 0]
  | inl e =>
      (e = out_of_range /\
       ~ In (snd it) (map fst (FrameInfo.gameObjects frameInfo))) \/
      (e = null_dereference /\
       exists obj,
         LveGameObject.at_ (FrameInfo.gameObjects frameInfo) (snd it) = inr obj /\
         LveGameObject.pointLight obj = None)
  end.
Proof.
  unfold render_draw.
  destruct (LveGameObject.at_ _ (snd it)) as [e | obj] eqn:Hat; cbn.
  - left. now apply at_missing.
  - destruct (LveGameObject.pointLight obj) as [light |] eqn:Hl; cbn.
    + exists obj, light. eexists. repeat split. exact Hl.
    + right. split; [reflexivity |]. now exists obj.
Qed.

Lemma render_loop_outcome frameInfo its :
  match render_loop frameInfo [] its with
  | inr block =>
      exists records,
        block =
          flat_map (fun push => [CmdPushConstants push; CmdDraw 6 1 0 0]) records /\
        length records = length its /\
        Forall
          (fun it => exists obj light,
             LveGameObject.at_ (FrameInfo.gameObjects frameInfo) (snd it)
               = inr obj /\
             LveGameObject.pointLight obj = Some light) its
  | inl e =>
      exists it, In it its /\
        ((e = out_of_range /\
          ~ In (snd it) (map fst (FrameInfo.gameObjects frameInfo))) \/
         (e = null_dereference /\
          exists obj,
            LveGameObject.at_ (FrameInfo.gameObjects frameInfo) (snd it)
              = inr obj /\
            LveGameObject.pointLight obj = None))
  end.
Proof.
  induction its as [| it its IH]; cbn.
  - exists []. repeat split. constructor.
  - pose proof (render_draw_outcome frameInfo it) as Hd.
    destruct (render_draw frameInfo [] it) as [e | block]; cbn.
    + exists it. auto.
    + destruct Hd as (obj & light & push & Hat & Hl & ->).
      rewrite render_loop_from_empty.
      destruct (render_loop frameInfo [] its) as [e | rest].
      * destruct IH as (it' & Hin & H). exists it'. auto.
      * destruct IH as (records & -> & Hlen & Hall).
        exists (push :: records). cbn. repeat split; [now rewrite Hlen |].
        constructor; [now exists obj, light | exact Hall].
Qed.

Lemma assign_length m k v :
  (length (std_map.assign m k v) <= S (length m))%nat.
Proof.
  induction m as [| [k1 v1] m IH]; cbn; [lia |].
  destruct (F32.ltb k k1); cbn; [lia |].
  destruct (F32.ltb k1 k); cbn; lia.
Qed.

Lemma fill_length {A} (d : A -> float) (i : A -> id_t) (os : list A) :
  (length (fill d i os []) <= length os)%nat.
Proof.
  induction os as [| o os IH] using rev_ind; [cbn; lia |].
  rewrite fill_snoc, length_app. cbn.
  pose proof (assign_length (fill d i os []) (d o) (i o)). lia.
Qed.

Lemma pushed_pairs records :
  pushed (flat_map (fun push => [CmdPushConstants push; CmdDraw 6 1 0 0])
            records) = records.
Proof.
  unfold pushed.
  induction records as [| p records IH]; cbn; [| rewrite IH]; reflexivity.
Qed.

(** X4: whenever the render pass returns, on any object map, it has only
    appended to the command buffer: the two bind commands, then for each
    entry of the distance map one record followed by one draw of 6 vertices
    and 1 instance.  It never pushes more records than the scene has lights,
    and it changes nothing else in the frame. *)
Theorem render_appends_record_draw_pairs frameInfo frameInfo' :
  render frameInfo = inr frameInfo' ->
  exists records,
    frameInfo' =
      FrameInfo.set_commandBuffer frameInfo
        (FrameInfo.commandBuffer frameInfo
           ++ [PipelineBind;
               CmdBindDescriptorSets 0 [FrameInfo.globalDescriptorSet frameInfo]]
           ++ flat_map (fun push => [CmdPushConstants push; CmdDraw 6 1 0 0])
                records) /\
    pushed (FrameInfo.commandBuffer frameInfo') =
      pushed (FrameInfo.commandBuffer frameInfo) ++ records /\
    length records = length (render_sort frameInfo) /\
    (length records <= length (lights (FrameInfo.gameObjects frameInfo)))%nat.
Proof.
  unfold render. rewrite render_loop_from_empty.
  pose proof (render_loop_outcome frameInfo
                (std_map.reversed (render_sort frameInfo))) as Hloop.
  destruct (render_loop frameInfo [] _) as [e | block]; cbn; [discriminate |].
  destruct Hloop as (records & -> & Hlen & _). intros [= <-].
  exists records. unfold std_map.reversed in Hlen. rewrite length_rev in Hlen.
  repeat split.
  - now rewrite <- !app_assoc.
  - unfold FrameInfo.set_commandBuffer. cbn [FrameInfo.commandBuffer].
    rewrite !pushed_app, pushed_pairs. cbn. now rewrite !app_nil_r.
  - exact Hlen.
  - rewrite Hlen, render_sort_fill. apply fill_length.
Qed.

Lemma render_appends_record_draw_pairs_witness :
  exists frameInfo' records,
    render (frame_of two_lights_tied) = inr frameInfo' /\
    pushed (FrameInfo.commandBuffer frameInfo') = records /\
    (length records <= 2)%nat.
Proof.
  destruct (render (frame_of two_lights_tied)) as [e | frameInfo'] eqn:Hr;
    [vm_compute in Hr; discriminate |].
  destruct (render_appends_record_draw_pairs _ _ Hr)
    as (records & _ & Hp & _ & Hle).
  exists frameInfo', records. repeat split; [exact Hp | exact Hle].
Defined.

(** X5: the render pass returns if and only if every identifier entered in
    the distance map is a key of the object map under which a light is
    stored.  Otherwise it stops with [std::out_of_range] at an identifier
    that is no key, or with a null dereference at an identifier whose
    object has no [pointLight]; its assertion-free body never stops in
    another way. *)
Theorem render_returns_iff frameInfo :
  ((exists frameInfo', render frameInfo = inr frameInfo') <->
   Forall
     (fun it => exists obj light,
        LveGameObject.at_ (FrameInfo.gameObjects frameInfo) (snd it) = inr obj /\
        LveGameObject.pointLight obj = Some light)
     (render_sort frameInfo)) /\
  (forall e,
     render frameInfo = inl e ->
     exists it, In it (render_sort frameInfo) /\
       ((e = out_of_range /\
         ~ In (snd it) (map fst (FrameInfo.gameObjects frameInfo))) \/
        (e = null_dereference /\
         exists obj,
           LveGameObject.at_ (FrameInfo.gameObjects frameInfo) (snd it)
             = inr obj /\
           LveGameObject.pointLight obj = None))).
Proof.
  unfold render. rewrite render_loop_from_empty.
  pose proof (render_loop_outcome frameInfo
                (std_map.reversed (render_sort frameInfo))) as Hloop.
  unfold std_map.reversed in *.
  destruct (render_loop frameInfo [] _) as [e | block]; cbn.
  - destruct Hloop as (it & Hin & Hfault). apply in_rev in Hin. split.
    + split; [intros [? H]; discriminate |].
      intros Hall. exfalso. rewrite Forall_forall in Hall.
      destruct (Hall it Hin) as (obj & light & Hat & Hl).
      destruct Hfault as [[_ Hmiss] | [_ (obj' & Hat' & Hl')]].
      * apply Hmiss. apply at_stored in Hat.
        apply in_map_iff. now exists (snd it, obj).
      * congruence.
    + intros e' [= <-]. exists it. auto.
  - destruct Hloop as (records & _ & _ & Hall). split.
    + split; [intros _ | intros _; eexists; reflexivity].
      apply Forall_rev in Hall. now rewrite rev_involutive in Hall.
    + discriminate.
Qed.

Lemma render_loop_ignores_buffer frameInfo recorded its :
  forall commandBuffer,
    render_loop (FrameInfo.set_commandBuffer frameInfo recorded)
      commandBuffer its =
    render_loop frameInfo commandBuffer its.
Proof.
  induction its as [| it its IH]; intros commandBuffer; cbn; [reflexivity |].
  change (render_draw (FrameInfo.set_commandBuffer frameInfo recorded)
            commandBuffer it)
    with (render_draw frameInfo commandBuffer it).
  destruct (render_draw frameInfo commandBuffer it); cbn; [reflexivity |].
  apply IH.
Qed.

(** X6: the render pass can be repeated.  What it appends is determined by
    the objects, the camera and the descriptor set, not by the commands
    already in the buffer, and it leaves those three as they are; so a
    second call on the frame it returned appends the same commands again. *)
Theorem render_repeatable frameInfo frameInfo1 :
  render frameInfo = inr frameInfo1 ->
  exists block,
    FrameInfo.commandBuffer frameInfo1 =
      FrameInfo.commandBuffer frameInfo ++ block /\
    (forall commandBuffer,
       render (FrameInfo.set_commandBuffer frameInfo commandBuffer) =
       inr (FrameInfo.set_commandBuffer frameInfo (commandBuffer ++ block))) /\
    render frameInfo1 =
      inr (FrameInfo.set_commandBuffer frameInfo
             (FrameInfo.commandBuffer frameInfo ++ block ++ block)).
Proof.
  intros Hr.
  assert (Hgen : forall commandBuffer,
            render (FrameInfo.set_commandBuffer frameInfo commandBuffer) =
            match render_loop frameInfo []
                    (std_map.reversed (render_sort frameInfo)) with
            | inl e => inl e
            | inr draws =>
                inr (FrameInfo.set_commandBuffer frameInfo
                       (commandBuffer
                          ++ [PipelineBind;
                              CmdBindDescriptorSets 0
                                [FrameInfo.globalDescriptorSet frameInfo]]
                          ++ draws))
            end).
  { intros commandBuffer. unfold render.
    change (render_sort (FrameInfo.set_commandBuffer frameInfo commandBuffer))
      with (render_sort frameInfo).
    rewrite render_loop_ignores_buffer, render_loop_from_empty.
    destruct (render_loop frameInfo [] _); cbn; [reflexivity |].
    now rewrite <- !app_assoc. }
  assert (Hself : FrameInfo.set_commandBuffer frameInfo
                    (FrameInfo.commandBuffer frameInfo) = frameInfo)
    by now destruct frameInfo.
  pose proof (Hgen (FrameInfo.commandBuffer frameInfo)) as H0.
  rewrite Hself, Hr in H0.
  destruct (render_loop frameInfo [] _) as [e | draws]; [discriminate |].
  injection H0 as ->.
  exists ([PipelineBind;
           CmdBindDescriptorSets 0 [FrameInfo.globalDescriptorSet frameInfo]]
            ++ draws).
  split; [reflexivity |]. split; [exact Hgen |].
  rewrite Hgen. cbn. now rewrite <- !app_assoc.
Qed.

Lemma render_repeatable_witness :
  exists frameInfo1 frameInfo2,
    render (frame_of three_lights) = inr frameInfo1 /\
    render frameInfo1 = inr frameInfo2 /\
    length (FrameInfo.commandBuffer frameInfo2) = 16%nat.
Proof.
  destruct (render (frame_of three_lights)) as [e | frameInfo1] eqn:Hr;
    [vm_compute in Hr; discriminate |].
  destruct (render_repeatable _ _ Hr) as (block & Hcb & _ & Hr2).
  exists frameInfo1. eexists. split; [reflexivity |]. split; [exact Hr2 |].
  vm_compute in Hr. injection Hr as <-. cbn in Hcb. subst block.
  reflexivity.
Defined.

(** X7: with distances that are numbers, ties or not, the lights that are
    drawn are drawn back to front: each record belongs to a light of the
    scene, and every light drawn later is strictly nearer to the camera, so
    no two records are at one distance. *)
Theorem render_back_to_front frameInfo :
  well_formed (FrameInfo.gameObjects frameInfo) ->
  Forall (fun o => F32.is_nan (disSquared frameInfo o) = false)
         (lights (FrameInfo.gameObjects frameInfo)) ->
  exists order frameInfo',
    render frameInfo = inr frameInfo' /\
    pushed (FrameInfo.commandBuffer frameInfo') =
      pushed (FrameInfo.commandBuffer frameInfo) ++ map shader_record order /\
    incl order (lights (FrameInfo.gameObjects frameInfo)) /\
    StronglySorted
      (fun a b =>
         F32.ltb (disSquared frameInfo b) (disSquared frameInfo a) = true)
      order.
Proof.
  intros Hwf Hnan.
  destruct (render_resolved frameInfo Hwf Hnan) as (order & Hr & Hperm & Hs).
  exists order. eexists. split; [exact Hr |]. cbn.
  split; [apply pushed_render |]. split; [| exact Hs].
  intros o Ho. eapply winners_incl, Permutation_in; [exact Hperm | exact Ho].
Qed.

Lemma render_back_to_front_witness :
  exists order frameInfo',
    render (frame_of two_lights_tied) = inr frameInfo' /\
    pushed (FrameInfo.commandBuffer frameInfo') = map shader_record order /\
    incl order (lights two_lights_tied).
Proof.
  destruct (render_back_to_front (frame_of two_lights_tied))
    as (order & frameInfo' & Hr & Hp & Hincl & _).
  - split.
    + repeat constructor; cbn; intuition discriminate.
    + repeat constructor.
  - repeat constructor.
  - exists order, frameInfo'. auto.
Defined.

Lemma sorted_unique {A} (R : A -> A -> Prop) (l1 : list A) :
  (forall a, ~ R a a) ->
  (forall a b c, R a b -> R b c -> R a c) ->
  forall l2,
    StronglySorted R l1 -> StronglySorted R l2 -> Permutation l1 l2 -> l1 = l2.
Proof.
  intros Hirr Htrans. induction l1 as [| a l1 IH]; intros l2 H1 H2 Hperm.
  - symmetry. now apply Permutation_nil.
  - destruct l2 as [| b l2].
    { apply Permutation_sym, Permutation_nil in Hperm. discriminate. }
    apply StronglySorted_inv in H1, H2.
    destruct H1 as [H1 Ha], H2 as [H2 Hb].
    rewrite Forall_forall in Ha, Hb.
    assert (a = b) as <-.
    { assert (Hin : In a (b :: l2))
        by (eapply Permutation_in; [exact Hperm | now left]).
      destruct Hin as [<- | Hin]; [reflexivity |].
      assert (Hin' : In b (a :: l1))
        by (eapply Permutation_in; [symmetry; exact Hperm | now left]).
      exfalso. destruct Hin' as [-> | Hin'].
      - exact (Hirr _ (Hb _ Hin)).
      - exact (Hirr _ (Htrans _ _ _ (Ha _ Hin') (Hb _ Hin))). }
    f_equal. apply IH; try assumption.
    now apply Permutation_cons_inv in Hperm.
Qed.

Lemma ForallOrdPairs_perm {A} (R : A -> A -> Prop) (l l' : list A) :
  (forall a b, R a b -> R b a) ->
  Permutation l l' -> ForallOrdPairs R l -> ForallOrdPairs R l'.
Proof.
  intros Hsym. induction 1 as [| x l l' Hp IH | x y l | l l' l'' _ IH1 _ IH2];
    intros H.
  - constructor.
  - inversion H as [| ? ? Hx Hl]; subst. constructor; [| now apply IH].
    eapply Permutation_Forall; eassumption.
  - inversion H as [| ? ? Hy Hl]; subst.
    inversion Hy as [| ? ? Hyx Hyl]; subst.
    inversion Hl as [| ? ? Hxl Hl']; subst.
    repeat constructor; auto.
  - auto.
Qed.

Lemma lights_perm gameObjects gameObjects' :
  Permutation gameObjects gameObjects' ->
  Permutation (lights gameObjects) (lights gameObjects').
Proof.
  unfold lights.
  induction 1 as [| [k o] m m' _ IH | [k o] [k' o'] m | m m' m'' _ IH1 _ IH2];
    cbn.
  - constructor.
  - destruct (is_light o); [now constructor | exact IH].
  - destruct (is_light o), (is_light o'); try reflexivity. constructor.
  - etransitivity; eassumption.
Qed.

Lemma well_formed_perm gameObjects gameObjects' :
  Permutation gameObjects gameObjects' ->
  well_formed gameObjects -> well_formed gameObjects'.
Proof.
  intros Hp [Hnd Hid]. split.
  - eapply Permutation_NoDup; [apply Permutation_map; exact Hp | exact Hnd].
  - eapply Permutation_Forall; eassumption.
Qed.

(** X8: the iteration order of the unordered object map does not show in
    the output when the distances are pairwise distinct numbers: on any
    rearrangement of the entries of a well-formed map the pass appends the
    same commands. *)
Theorem render_ignores_iteration_order frameInfo gameObjects' :
  Permutation (FrameInfo.gameObjects frameInfo) gameObjects' ->
  well_formed (FrameInfo.gameObjects frameInfo) ->
  Forall (fun o => F32.is_nan (disSquared frameInfo o) = false)
         (lights (FrameInfo.gameObjects frameInfo)) ->
  ForallOrdPairs
    (fun a b =>
       F32.eqb (disSquared frameInfo a) (disSquared frameInfo b) = false)
    (lights (FrameInfo.gameObjects frameInfo)) ->
  exists block,
    render frameInfo =
      inr (FrameInfo.set_commandBuffer frameInfo
             (FrameInfo.commandBuffer frameInfo ++ block)) /\
    render (FrameInfo.set_gameObjects frameInfo gameObjects') =
      inr (FrameInfo.set_commandBuffer
             (FrameInfo.set_gameObjects frameInfo gameObjects')
             (FrameInfo.commandBuffer frameInfo ++ block)).
Proof.
  intros Hp Hwf Hnan Hdistinct.
  set (frameInfo2 := FrameInfo.set_gameObjects frameInfo gameObjects').
  pose proof (lights_perm _ _ Hp) as Hlp.
  assert (Hwf2 : well_formed (FrameInfo.gameObjects frameInfo2))
    by (eapply well_formed_perm; eassumption).
  assert (Hnan2 : Forall (fun o => F32.is_nan (disSquared frameInfo2 o) = false)
                         (lights (FrameInfo.gameObjects frameInfo2)))
    by (eapply Permutation_Forall; [exact Hlp | exact Hnan]).
  assert (Hdistinct2 :
            ForallOrdPairs
              (fun a b => F32.eqb (disSquared frameInfo2 a)
                                  (disSquared frameInfo2 b) = false)
              (lights (FrameInfo.gameObjects frameInfo2))).
  { eapply ForallOrdPairs_perm; [| exact Hlp | exact Hdistinct].
    intros a b H. now rewrite F32Order.eqb_sym. }
  destruct (render_resolved frameInfo Hwf Hnan) as (order & Hr & Hperm & Hs).
  destruct (render_resolved frameInfo2 Hwf2 Hnan2)
    as (order2 & Hr2 & Hperm2 & Hs2).
  rewrite (winners_all _ _ Hdistinct) in Hperm.
  rewrite (winners_all _ _ Hdistinct2) in Hperm2.
  assert (order = order2) as <-.
  { apply (sorted_unique (farther_first frameInfo)); try assumption.
    - intros a H. unfold farther_first in H.
      now rewrite F32Order.ltb_irrefl in H.
    - intros a b c Hab Hbc. unfold farther_first in *.
      eapply F32Order.ltb_trans; eassumption.
    - rewrite Hperm, Hperm2. exact Hlp. }
  eexists. split; [exact Hr | exact Hr2].
Qed.

Lemma render_ignores_iteration_order_witness :
  exists block,
    render (frame_of three_lights) =
      inr (FrameInfo.set_commandBuffer (frame_of three_lights) ([] ++ block)) /\
    render (frame_of (rev three_lights)) =
      inr (FrameInfo.set_commandBuffer (frame_of (rev three_lights))
             ([] ++ block)).
Proof.
  apply (render_ignores_iteration_order (frame_of three_lights)
           (rev three_lights)).
  - apply Permutation_rev.
  - split.
    + repeat constructor; cbn; intuition discriminate.
    + repeat constructor.
  - repeat constructor.
  - repeat constructor.
Defined.


(** * The sort key *)

Lemma binary_round_aux_sign sx mx ex lx :
  match binary_round_aux F32.prec F32.emax sx mx ex lx with
  | S754_nan => True
  | S754_zero s | S754_infinity s | S754_finite s _ _ => s = sx
  end.
Proof.
  unfold binary_round_aux.
  destruct (shr_fexp F32.prec F32.emax mx ex lx) as [mrs' e'].
  destruct (shr_fexp F32.prec F32.emax _ e' loc_Exact) as [mrs'' e''].
  destruct (shr_m mrs''); [reflexivity | | exact I].
  now destruct (_ <=? _).
Qed.

Lemma binary_round_sign sx mx ex :
  match binary_round F32.prec F32.emax sx mx ex with
  | S754_nan => True
  | S754_zero s | S754_infinity s | S754_finite s _ _ => s = sx
  end.
Proof.
  unfold binary_round. destruct (shl_align _ _ _) as [mz ez].
  apply binary_round_aux_sign.
Qed.

(** A square is not negative. *)
Lemma mul_self_not_negative x : not_negative (F32.mul x x).
Proof.
  destruct x as [s | s | | s m e]; cbn; try (now destruct s); try exact I.
  pose proof (binary_round_aux_sign (xorb s s) (Z.pos (m * m)) (e + e) loc_Exact)
    as H.
  rewrite xorb_nilpotent in *. exact H.
Qed.

(** A sum of floats that are not negative is not negative. *)
Lemma add_not_negative x y :
  not_negative x -> not_negative y -> not_negative (F32.add x y).
Proof.
  destruct x as [sx | sx | | sx mx ex], y as [sy | sy | | sy my ey]; cbn;
    try tauto; try (intros -> ->; reflexivity); try (intros _ ->; reflexivity);
    try (intros -> _; reflexivity).
  intros -> ->. cbn. apply binary_round_sign.
Qed.

Lemma disSquared_sign frameInfo obj :
  not_negative (disSquared frameInfo obj).
Proof.
  unfold disSquared, glm.dot.
  repeat apply add_not_negative; apply mul_self_not_negative.
Qed.

(** X9: the key under which a light is entered in the distance map is never
    negative: the squared distance is NaN or has a clear sign bit (so it is
    never -0), and it is never below zero. *)
Theorem disSquared_not_negative frameInfo obj :
  not_negative (disSquared frameInfo obj) /\
  disSquared frameInfo obj <> S754_zero true /\
  F32.ltb (disSquared frameInfo obj) F32.zero = false.
Proof.
  pose proof (disSquared_sign frameInfo obj) as H.
  split; [exact H |].
  destruct (disSquared frameInfo obj) as [s | s | | s m e]; cbn in H; subst;
    split; try discriminate; reflexivity.
Qed.

(** * Further properties of the update pass *)

Lemma modify_nth_length {A} (f : A -> A) (a : list A) :
  forall n, length (modify_nth n f a) = length a.
Proof.
  induction a as [| x a IH]; intros [| n]; cbn; try reflexivity.
  now rewrite IH.
Qed.

Lemma modify_at_length {A} (f : A -> A) (a : list A) i :
  length (modify_at i f a) = length a.
Proof.
  unfold modify_at. destruct (i <? 0); [reflexivity | apply modify_nth_length].
Qed.

Lemma update_light_keeps rotateLight obj light ubo lightIndex :
  fst (update_light rotateLight obj light ubo lightIndex) =
    rotated rotateLight obj /\
  same_block_but_lights ubo
    (snd (update_light rotateLight obj light ubo lightIndex)) /\
  GlobalUbo.numLights (snd (update_light rotateLight obj light ubo lightIndex))
    = GlobalUbo.numLights ubo.
Proof.
  unfold update_light, same_block_but_lights. cbn.
  repeat split. now rewrite !modify_at_length.
Qed.

(** The loop on any uniform block: the objects it returns, the count and
    what it keeps. *)
Lemma update_loop_keeps rotateLight entries :
  forall ubo lightIndex done ubo' lightIndex',
    update_loop rotateLight entries ubo lightIndex = inr (done, ubo', lightIndex') ->
    done = map (advance rotateLight) entries /\
    lightIndex' = lightIndex + Z.of_nat (length (lights entries)) /\
    same_block_but_lights ubo ubo' /\
    GlobalUbo.numLights ubo' = GlobalUbo.numLights ubo.
Proof.
  induction entries as [| [k obj] entries IH];
    intros ubo n done ubo' n'; cbn [update_loop].
  - intros [= <- <- <-]. cbn. unfold same_block_but_lights.
    repeat split. lia.
  - unfold advance at 1. cbn [map fst snd].
    destruct (LveGameObject.pointLight obj) as [light |] eqn:Hl.
    + assert (Hlight : is_light obj = true) by (unfold is_light; now rewrite Hl).
      rewrite Hlight, (lights_cons_light _ _ _ Hlight).
      destruct (n <? MAX_LIGHTS); cbn [assert bind ret raise]; [| discriminate].
      destruct (update_light_keeps rotateLight obj light ubo n)
        as (Hobj & Hblock & Hnum).
      destruct (update_light rotateLight obj light ubo n) as [obj1 ubo1].
      cbn in Hobj, Hblock, Hnum. subst obj1.
      destruct (update_loop rotateLight entries ubo1 (n + 1))
        as [e | [[done1 ubo2] n2]] eqn:Hloop; cbn; [discriminate |].
      intros [= <- <- <-].
      destruct (IH _ _ _ _ _ Hloop) as (-> & -> & Hblock2 & Hnum2).
      unfold same_block_but_lights in *. cbn [length].
      repeat split; try lia; intuition congruence.
    + assert (Hlight : is_light obj = false) by (unfold is_light; now rewrite Hl).
      rewrite Hlight, (lights_cons_other _ _ _ Hlight).
      destruct (update_loop rotateLight entries ubo n)
        as [e | [[done1 ubo2] n2]] eqn:Hloop; cbn; [discriminate |].
      intros [= <- <- <-].
      destruct (IH _ _ _ _ _ Hloop) as (-> & -> & Hblock2 & Hnum2).
      auto.
Qed.

Lemma advance_keeps rotateLight kv :
  let obj := snd kv in
  let obj' := snd (advance rotateLight kv) in
  fst (advance rotateLight kv) = fst kv /\
  LveGameObject.getId obj' = LveGameObject.getId obj /\
  LveGameObject.color obj' = LveGameObject.color obj /\
  TransformComponent.scale (LveGameObject.transform obj') =
    TransformComponent.scale (LveGameObject.transform obj) /\
  LveGameObject.pointLight obj' = LveGameObject.pointLight obj /\
  (LveGameObject.pointLight obj = None -> obj' = obj).
Proof.
  cbn zeta. unfold advance, is_light.
  destruct (LveGameObject.pointLight (snd kv)) eqn:Hl; cbn; repeat split; auto.
  discriminate.
Qed.

Lemma advance_well_formed rotateLight gameObjects :
  well_formed gameObjects ->
  well_formed (map (advance rotateLight) gameObjects).
Proof.
  intros [Hnd Hid]. split.
  - rewrite map_map.
    replace (map (fun kv => fst (advance rotateLight kv)) gameObjects)
      with (map fst gameObjects); [exact Hnd |].
    apply map_ext. intros kv. symmetry. apply advance_keeps.
  - apply Forall_map. eapply Forall_impl; [| exact Hid].
    intros kv Hkv.
    destruct (advance_keeps rotateLight kv) as (Hk & Hi & _).
    cbn zeta in Hi. congruence.
Qed.


Lemma advance_keeps_all rotateLight gameObjects :
  Forall2
    (fun kv kv' =>
       let obj := snd kv in
       let obj' := snd kv' in
       LveGameObject.getId obj' = LveGameObject.getId obj /\
       LveGameObject.color obj' = LveGameObject.color obj /\
       TransformComponent.scale (LveGameObject.transform obj') =
         TransformComponent.scale (LveGameObject.transform obj) /\
       LveGameObject.pointLight obj' = LveGameObject.pointLight obj /\
       (LveGameObject.pointLight obj = None -> obj' = obj))
    gameObjects (map (advance rotateLight) gameObjects).
Proof.
  induction gameObjects as [| kv m IH]; cbn; constructor; [| exact IH].
  destruct (advance_keeps rotateLight kv) as (_ & H). exact H.
Qed.

(** X10: the update pass, whenever it returns, keeps the object map in
    shape: the same keys in the same order, and for every object the same
    identifier, color, scale and [pointLight]; an object that is no light is
    returned as it was.  Only translations of lights change, so a
    well-formed map stays well-formed. *)
Theorem update_keeps_objects glm_rotate frameInfo ubo frameInfo1 ubo1 :
  update glm_rotate frameInfo ubo = inr (frameInfo1, ubo1) ->
  map fst (FrameInfo.gameObjects frameInfo1) =
    map fst (FrameInfo.gameObjects frameInfo) /\
  Forall2
    (fun kv kv' =>
       let obj := snd kv in
       let obj' := snd kv' in
       LveGameObject.getId obj' = LveGameObject.getId obj /\
       LveGameObject.color obj' = LveGameObject.color obj /\
       TransformComponent.scale (LveGameObject.transform obj') =
         TransformComponent.scale (LveGameObject.transform obj) /\
       LveGameObject.pointLight obj' = LveGameObject.pointLight obj /\
       (LveGameObject.pointLight obj = None -> obj' = obj))
    (FrameInfo.gameObjects frameInfo) (FrameInfo.gameObjects frameInfo1) /\
  (well_formed (FrameInfo.gameObjects frameInfo) ->
   well_formed (FrameInfo.gameObjects frameInfo1)).
Proof.
  unfold update.
  destruct (update_loop _ (FrameInfo.gameObjects frameInfo) ubo 0)
    as [e | [[done ubo'] n]] eqn:Hloop; cbn; [discriminate |].
  intros [= <- <-]. cbn.
  destruct (update_loop_keeps _ _ _ _ _ _ _ Hloop) as (-> & _).
  split; [| split].
  - rewrite map_map. apply map_ext. intros kv. apply advance_keeps.
  - apply advance_keeps_all.
  - apply advance_well_formed.
Qed.

Lemma update_keeps_objects_witness :
  exists frameInfo1 ubo1,
    update rotate_none (frame_of three_lights) ubo_initial =
      inr (frameInfo1, ubo1) /\
    map fst (FrameInfo.gameObjects frameInfo1) = [0; 1; 2].
Proof.
  destruct (update rotate_none (frame_of three_lights) ubo_initial)
    as [e | [frameInfo1 ubo1]] eqn:Hu; [vm_compute in Hu; discriminate |].
  destruct (update_keeps_objects _ _ _ _ _ Hu) as (Hkeys & _).
  exists frameInfo1, ubo1. split; [reflexivity | exact Hkeys].
Defined.

(** X11: the update pass, whenever it returns, has written nothing but the
    objects, the contents of the light array and the light count: the other
    members of the frame (among them the command buffer) and of the uniform
    block are as before, the array has kept its length, and the count is
    the number of lights of the scene. *)
Theorem update_frame glm_rotate frameInfo ubo frameInfo1 ubo1 :
  update glm_rotate frameInfo ubo = inr (frameInfo1, ubo1) ->
  frameInfo1 =
    FrameInfo.set_gameObjects frameInfo (FrameInfo.gameObjects frameInfo1) /\
  GlobalUbo.projection ubo1 = GlobalUbo.projection ubo /\
  GlobalUbo.view ubo1 = GlobalUbo.view ubo /\
  GlobalUbo.inverseView ubo1 = GlobalUbo.inverseView ubo /\
  GlobalUbo.ambientLightColor ubo1 = GlobalUbo.ambientLightColor ubo /\
  length (GlobalUbo.pointLights ubo1) = length (GlobalUbo.pointLights ubo) /\
  GlobalUbo.numLights ubo1 =
    Z.of_nat (length (lights (FrameInfo.gameObjects frameInfo))).
Proof.
  unfold update.
  destruct (update_loop _ (FrameInfo.gameObjects frameInfo) ubo 0)
    as [e | [[done ubo'] n]] eqn:Hloop; cbn; [discriminate |].
  intros [= <- <-]. cbn.
  destruct (update_loop_keeps _ _ _ _ _ _ _ Hloop)
    as (_ & -> & (Hp & Hv & Hi & Ha & Hlen) & _).
  repeat split; assumption.
Qed.

Lemma update_frame_witness :
  exists frameInfo1 ubo1,
    update rotate_none (frame_of three_lights) ubo_initial =
      inr (frameInfo1, ubo1) /\
    length (GlobalUbo.pointLights ubo1) = 100%nat /\
    GlobalUbo.numLights ubo1 = 3.
Proof.
  destruct (update rotate_none (frame_of three_lights) ubo_initial)
    as [e | [frameInfo1 ubo1]] eqn:Hu; [vm_compute in Hu; discriminate |].
  destruct (update_frame _ _ _ _ _ Hu) as (_ & _ & _ & _ & _ & Hlen & Hn).
  exists frameInfo1, ubo1. repeat split; assumption.
Defined.

Lemma no_lights_advance rotateLight gameObjects :
  lights gameObjects = [] ->
  map (advance rotateLight) gameObjects = gameObjects.
Proof.
  unfold lights, advance.
  induction gameObjects as [| [k o] m IH]; cbn; [reflexivity |].
  destruct (is_light o); [discriminate |].
  intros H. now rewrite IH.
Qed.

(** X12: the two passes of a frame agree.  After an update that returned,
    on a well-formed map and an array of [MAX_LIGHTS] slots, the render pass
    returns as well, and every record it pushes carries the position and the
    color of one of the first [numLights] slots of the uniform block: the
    moved position, not the one before the update. *)
Theorem update_then_render_agree glm_rotate frameInfo ubo frameInfo1 ubo1 :
  well_formed (FrameInfo.gameObjects frameInfo) ->
  length (GlobalUbo.pointLights ubo) = Z.to_nat MAX_LIGHTS ->
  update glm_rotate frameInfo ubo = inr (frameInfo1, ubo1) ->
  exists frameInfo2 records,
    render frameInfo1 = inr frameInfo2 /\
    pushed (FrameInfo.commandBuffer frameInfo2) =
      pushed (FrameInfo.commandBuffer frameInfo) ++ records /\
    Forall
      (fun push =>
         exists slot,
           (Z.of_nat slot < GlobalUbo.numLights ubo1) /\
           nth_error (GlobalUbo.pointLights ubo1) slot =
             Some (PointLight.mk (UnitPushConstants.position push)
                                 (UnitPushConstants.color push)))
      records.
Proof.
  intros Hwf Hlen Hu.
  destruct (Z_le_gt_dec
              (Z.of_nat (length (lights (FrameInfo.gameObjects frameInfo))))
              MAX_LIGHTS) as [Hle | Hgt];
    [| rewrite (update_beyond glm_rotate frameInfo ubo Hgt) in Hu; discriminate].
  rewrite (update_within glm_rotate frameInfo ubo Hlen Hle) in Hu.
  injection Hu as <- <-.
  set (rotateLight := rotateLight_of glm_rotate frameInfo) in *.
  set (moved := map (rotated rotateLight)
                    (lights (FrameInfo.gameObjects frameInfo))) in *.
  set (frameInfo1 := FrameInfo.set_gameObjects frameInfo _).
  assert (Hwf1 : well_formed (FrameInfo.gameObjects frameInfo1))
    by (apply advance_well_formed; exact Hwf).
  destruct (render_total frameInfo1 Hwf1) as (order & Hdrawn & Hr).
  eexists. exists (map shader_record order). split; [exact Hr |].
  split; [apply pushed_render |].
  apply Forall_map, Forall_forall. intros o Ho.
  destruct (Forall2_in_r _ _ _ _ Hdrawn Ho) as (it & _ & Hin & _).
  cbn [frameInfo1 FrameInfo.gameObjects FrameInfo.set_gameObjects] in Hin.
  rewrite lights_advance in Hin. fold moved in Hin.
  destruct (In_nth_error _ _ Hin) as [slot Hslot].
  assert (Hlt : (slot < length moved)%nat)
    by (apply nth_error_Some; congruence).
  exists slot. cbn. split; [lia |].
  rewrite nth_error_app1 by now rewrite length_map.
  now rewrite nth_error_map, Hslot.
Qed.

Lemma update_then_render_agree_witness :
  exists frameInfo1 ubo1 frameInfo2,
    update rotate_none (frame_of three_lights) ubo_initial =
      inr (frameInfo1, ubo1) /\
    render frameInfo1 = inr frameInfo2 /\
    length (pushed (FrameInfo.commandBuffer frameInfo2)) = 3%nat.
Proof.
  destruct (update rotate_none (frame_of three_lights) ubo_initial)
    as [e | [frameInfo1 ubo1]] eqn:Hu; [vm_compute in Hu; discriminate |].
  destruct (update_then_render_agree rotate_none (frame_of three_lights)
              ubo_initial frameInfo1 ubo1)
    as (frameInfo2 & records & Hr & Hp & _).
  - split.
    + repeat constructor; cbn; intuition discriminate.
    + repeat constructor.
  - reflexivity.
  - exact Hu.
  - exists frameInfo1, ubo1, frameInfo2. split; [reflexivity |].
    split; [exact Hr |].
    vm_compute in Hu. injection Hu as <- <-.
    vm_compute in Hr. injection Hr as <-. reflexivity.
Defined.

(** X13: a scene without lights, the empty scene among them.  The update
    pass returns the frame as it was and only sets the light count to 0,
    whatever the uniform block; the render pass records the two bind
    commands and no draw call. *)
Theorem passes_without_lights glm_rotate frameInfo ubo :
  lights (FrameInfo.gameObjects frameInfo) = [] ->
  update glm_rotate frameInfo ubo =
    inr (frameInfo, GlobalUbo.set_numLights ubo 0) /\
  render frameInfo =
    inr (FrameInfo.set_commandBuffer frameInfo
           (FrameInfo.commandBuffer frameInfo
              ++ [PipelineBind;
                  CmdBindDescriptorSets 0
                    [FrameInfo.globalDescriptorSet frameInfo]])).
Proof.
  intros Hnone. split.
  - unfold update.
    change 0 with (Z.of_nat (length (@nil PointLight.t))) at 1.
    rewrite (update_loop_room _ _ ubo [] (GlobalUbo.pointLights ubo));
      [| reflexivity | rewrite Hnone; cbn; lia
       | rewrite Hnone; unfold MAX_LIGHTS; cbn; lia].
    rewrite Hnone, no_lights_advance by assumption. cbn.
    rewrite set_pointLights_same. now destruct frameInfo.
  - unfold render. rewrite render_sort_fill, Hnone. cbn.
    now rewrite <- app_assoc.
Qed.

Lemma passes_without_lights_witness :
  update rotate_none (frame_of []) ubo_initial =
    inr (frame_of [], GlobalUbo.set_numLights ubo_initial 0) /\
  render (frame_of []) =
    inr (FrameInfo.set_commandBuffer (frame_of [])
           ([] ++ [PipelineBind; CmdBindDescriptorSets 0 [0]])).
Proof.
  apply (passes_without_lights rotate_none (frame_of []) ubo_initial).
  reflexivity.
Defined.


(** * Midpoints *)

(** Addition of floats commutes.  The model has a single NaN, so for a NaN
    result this says that both orders give a NaN, not which payload. *)
Lemma add_comm (x y : float) : F32.add x y = F32.add y x.
Proof.
  destruct x as [sx | sx | | sx mx ex], y as [sy | sy | | sy my ey]; cbn;
    try reflexivity; try (now destruct sx, sy).
  now rewrite Z.min_comm, Z.add_comm.
Qed.

Lemma generate_corners_in depth left_ right_ top :
  In (mk_Vertex top red) (generate depth left_ right_ top) /\
  In (mk_Vertex right_ green) (generate depth left_ right_ top) /\
  In (mk_Vertex left_ blue) (generate depth left_ right_ top).
Proof.
  revert left_ right_ top. pattern depth. apply depth_ind; clear depth.
  - intros depth Hd l r t. unfold generate. rewrite sierpinski_base by assumption.
    cbn. tauto.
  - intros depth Hd IH l r t. rewrite generate_step by assumption.
    destruct (IH l (midpoint l r) (midpoint l t)) as (_ & _ & Hleft).
    destruct (IH (midpoint l r) r (midpoint r t)) as (_ & Hright & _).
    destruct (IH (midpoint l t) (midpoint r t) t) as (Htop & _ & _).
    rewrite !in_app_iff. tauto.
Qed.

Lemma midpoint_sym (a b : glm.vec2) : midpoint a b = midpoint b a.
Proof.
  unfold midpoint, glm.add2, glm.scale2. cbn [glm.x2 glm.y2].
  now rewrite (add_comm (glm.x2 a)), (add_comm (glm.y2 a)).
Qed.

(** X14: the midpoint [0.5f * (a + b)] does not depend on the order of its
    arguments.  Each component is the same float in both orders: when it is
    a number (a zero, a finite value or an infinity) it has the same sign,
    mantissa and exponent, and otherwise it is a NaN in both orders.  The
    payload of a NaN is not part of the model and nothing is said of it. *)
Theorem midpoint_comm (a b : glm.vec2) :
  let same (x y : float) :=
    if F32.is_nan x then F32.is_nan y = true else x = y in
  same (glm.x2 (midpoint a b)) (glm.x2 (midpoint b a)) /\
  same (glm.y2 (midpoint a b)) (glm.y2 (midpoint b a)).
Proof.
  cbn zeta. rewrite (midpoint_sym a b).
  split;
    match goal with
    | |- if F32.is_nan ?x then _ else _ =>
        destruct (F32.is_nan x); reflexivity
    end.
Qed.

(** X15: the sub-triangles meet without a gap.  For [depth > 0] each edge
    midpoint of the triangle is a vertex of the output twice, with the two
    colors it has as a corner of the two sub-triangles that share it. *)
Theorem generate_shares_midpoints depth left_ right_ top :
  depth > 0 ->
  let out := generate depth left_ right_ top in
  (In (mk_Vertex (midpoint left_ right_) green) out /\
   In (mk_Vertex (midpoint left_ right_) blue) out) /\
  (In (mk_Vertex (midpoint left_ top) red) out /\
   In (mk_Vertex (midpoint left_ top) blue) out) /\
  (In (mk_Vertex (midpoint right_ top) red) out /\
   In (mk_Vertex (midpoint right_ top) green) out).
Proof.
  intros Hd. cbn zeta. rewrite generate_step by assumption.
  destruct (generate_corners_in (depth - 1) left_ (midpoint left_ right_)
              (midpoint left_ top)) as (H1t & H1r & _).
  destruct (generate_corners_in (depth - 1) (midpoint left_ right_) right_
              (midpoint right_ top)) as (H2t & _ & H2l).
  destruct (generate_corners_in (depth - 1) (midpoint left_ top)
              (midpoint right_ top) top) as (_ & H3r & H3l).
  rewrite !in_app_iff. tauto.
Qed.

Lemma generate_shares_midpoints_witness :
  In (mk_Vertex (midpoint p_left p_right) green)
     (generate 2 p_left p_right p_top) /\
  In (mk_Vertex (midpoint p_left p_right) blue)
     (generate 2 p_left p_right p_top).
Proof.
  apply (generate_shares_midpoints 2 p_left p_right p_top). lia.
Defined.

(** * A light at the camera *)

Lemma sub_self (x : float) :
  is_finite x = true -> F32.sub x x = F32.zero.
Proof.
  destruct x as [s | s | | s m e]; cbn; try discriminate; intros _.
  - now destruct s.
  - now rewrite Z.sub_diag.
Qed.


